(** * simleg: a LEGv8 simulator, embedded and verified

    The development follows the layout of the Go package:
    - [Go]       : outcomes of Go code (value, panic, deadlock), [error]
                   values and 64-bit arithmetic;
    - [Rand]     : the process-wide [random] source, as an arbitrary supply;
    - [Mem]      : the sparse paged memory ([Memory], [memoryBlock]);
    - [Asm]      : registers, [Addr], [Instruction], the opcode table;
    - [Lex]      : the pull lexer, on ASCII input;
    - [Parse]    : the parser, its format parsers and the driver's read loop;
    - [Cpu]      : [Load], [Step], [arith], [branch], [memory], the flags,
                   and the driver's run loop;
    - [Examples] : program texts and machine states;
    - then the theorems: memory, processor, and the scenarios.

    Unsigned 64-bit integers are [Z] with the wrap-around written out
    ([wrap64]); bytes are [Byte.byte]; Go maps are [gmap]; the register
    array is a list read and written by index, with the panic of an index
    out of range made explicit.  A Go function that can panic returns a
    [result]; one that returns [(T, error)] returns [T * option error]. *)

From Stdlib Require Import ZArith String Ascii List Lia.
From Stdlib.Strings Require Import Byte.
From stdpp Require Import base option list gmap strings pretty.

Open Scope Z_scope.

(* ===================================================================== *)
(** ** Outcomes of Go code *)
(* ===================================================================== *)

Module Go.

(** What can stop a Go function short of returning. *)
Inductive fault :=
  | GoPanic (msg : string)   (* a run-time panic *)
  | Deadlock                 (* a send on a full channel nobody drains *)
  | NonASCII                 (* the input leaves the domain of the lexer model *)
  | OutOfFuel.               (* the loop bound of the model was too small *)

Inductive result (A : Type) :=
  | Ok (a : A)
  | Fault (f : fault).
Arguments Ok {A} a.
Arguments Fault {A} f.

Definition bind {A B} (x : result A) (k : A -> result B) : result B :=
  match x with
  | Ok a => k a
  | Fault f => Fault f
  end.

Definition panic {A} (msg : string) : result A := Fault (GoPanic msg).

(** Go's [error] values, as far as the package produces them: the [io.EOF]
    sentinel, and errors carrying a formatted message. *)
Inductive error :=
  | EOF
  | Errorf (msg : string).

Definition error_string (e : error) : string :=
  match e with
  | EOF => "EOF"
  | Errorf msg => msg
  end.

(** [uint64] arithmetic wraps modulo [2^64]. *)
Definition wrap64 (z : Z) : Z := z mod 2 ^ 64.

(** [bits.Add64 x y 0] and [bits.Sub64 x y 0]: the wrapped result and the
    carry (respectively borrow) out. *)
Definition Add64 (x y : Z) : Z * Z :=
  (wrap64 (x + y), if 2 ^ 64 <=? x + y then 1 else 0).

Definition Sub64 (x y : Z) : Z * Z :=
  (wrap64 (x - y), if x <? y then 1 else 0).

End Go.

Export Go.

(** [result] is a monad in stdpp's sense: [x ← c; k] sequences Go
    statements and lets a fault cut the rest short. *)
#[export] Instance result_ret : MRet result := fun A a => Ok a.
#[export] Instance result_bind : MBind result := fun A B k x => bind x k.

(* ===================================================================== *)
(** ** The random source *)
(* ===================================================================== *)

Module Rand.

(** [random] is a [*rand.Rand] seeded from the clock.  Nothing in the
    package depends on which numbers it yields, so the model is an arbitrary
    infinite supply [gen] with a cursor: every draw is some value, and
    theorems quantify over all supplies. *)
Record rng := { gen : nat -> Z; cursor : nat }.

Definition advance (r : rng) (n : nat) : rng :=
  {| gen := gen r; cursor := (cursor r + n)%nat |}.

Definition byte_of_Z (z : Z) : byte :=
  default "000"%byte (Byte.of_N (Z.to_N (z mod 256))).

(** [random.Uint64()] *)
Definition Uint64 (r : rng) : Z * rng :=
  (wrap64 (gen r (cursor r)), advance r 1).

(** [random.Read(buf)] for a buffer of [n] bytes: fills all of it. *)
Definition Read (r : rng) (n : nat) : list byte * rng :=
  (map (fun i => byte_of_Z (gen r (cursor r + i)%nat)) (seq 0 n), advance r n).

End Rand.

(* ===================================================================== *)
(** ** Memory *)
(* ===================================================================== *)

Module Mem.

Definition BlockSize : Z := 1024.

Record memoryBlock := { off : Z; data : list byte }.

(** [Memory.blocks] maps a block index to a pointer to its block.  Each
    pointer is stored under one key only, so writing through the pointer is
    modelled by replacing the map entry.  A nil map and an empty map read
    alike, and the first [getOrMakeBlock] replaces nil by an empty map; both
    are [∅].  The mutex guards single-threaded code and is not modelled. *)
Record Memory := { blocks : gmap Z memoryBlock }.

Definition empty : Memory := {| blocks := ∅ |}.

Definition getOrMakeBlock (m : Memory) (r : Rand.rng) (addr : Z)
  : memoryBlock * Memory * Rand.rng :=
  let k := addr / BlockSize in
  match blocks m !! k with
  | Some b => (b, m, r)
  | None =>
      let '(d, r') := Rand.Read r (Z.to_nat BlockSize) in
      let b := {| off := wrap64 (k * BlockSize); data := d |} in
      (b, {| blocks := <[k := b]> (blocks m) |}, r')
  end.

(** A slice expression [s[lo:hi]] of an array or slice of length [len]
    panics unless [lo <= hi <= len]. *)
Definition slice_ok (lo hi len : Z) : bool :=
  (0 <=? lo) && (lo <=? hi) && (hi <=? len).

(** [copy(dst[lo:hi], src)] seen from the whole of [dst]: the number of
    elements copied is the smaller of the two lengths. *)
Definition copy_into {A} (dst : list A) (lo hi : nat) (src : list A)
  : list A * nat :=
  let c := Nat.min (hi - lo) (length src) in
  (take lo dst ++ take c src ++ drop (lo + c) dst, c).

(** The window of block [k] one iteration of [Read] or [Write] works on. *)
Definition window (addr total n : Z) : Z * Z :=
  let off := wrap64 (addr + n) mod BlockSize in
  let end_ := wrap64 (wrap64 (off + total) - n) in
  (off, if BlockSize <? end_ then BlockSize else end_).

(** The number of bytes one iteration copies: [end - off]. *)
Definition chunk (addr total n : Z) : Z :=
  Z.min (BlockSize - wrap64 (addr + n) mod BlockSize) (total - n).

(** The loop of [Memory.Write]; [n] is the number of bytes written so far. *)
Fixpoint Write_loop (fuel : nat) (m : Memory) (r : Rand.rng)
    (b : list byte) (addr n : Z) : result (Z * Memory * Rand.rng) :=
  let total := Z.of_nat (length b) in
  if n <? total then
    match fuel with
    | O => Fault OutOfFuel
    | S fuel' =>
        let '(bk, m1, r1) := getOrMakeBlock m r (wrap64 (addr + n)) in
        let '(off, end_) := window addr total n in
        if slice_ok off end_ (Z.of_nat (length (data bk))) then
          let '(d, c) := copy_into (data bk) (Z.to_nat off) (Z.to_nat end_)
                           (drop (Z.to_nat n) b) in
          let bk' := {| off := Mem.off bk; data := d |} in
          let k := wrap64 (addr + n) / BlockSize in
          let m2 := {| blocks := <[k := bk']> (blocks m1) |} in
          Write_loop fuel' m2 r1 b addr (wrap64 (n + Z.of_nat c))
        else panic "slice bounds out of range"
    end
  else Ok (n, m, r).

(** [Memory.Write(b, addr)]: the count, the error (always nil, [None]) and
    the new state.  Every iteration copies at least one byte, so [length b]
    iterations are enough. *)
Definition Write (m : Memory) (r : Rand.rng) (b : list byte) (addr : Z)
  : result (Z * option error * Memory * Rand.rng) :=
  '(n, m', r') ← Write_loop (length b) m r b addr 0;
  Ok (n, None, m', r').

(** The loop of [Memory.Read]; [b] is the caller's buffer. *)
Fixpoint Read_loop (fuel : nat) (m : Memory) (r : Rand.rng)
    (b : list byte) (addr n : Z) : result (Z * list byte * Memory * Rand.rng) :=
  let total := Z.of_nat (length b) in
  if n <? total then
    match fuel with
    | O => Fault OutOfFuel
    | S fuel' =>
        let '(bk, m1, r1) := getOrMakeBlock m r (wrap64 (addr + n)) in
        let '(off, end_) := window addr total n in
        if slice_ok off end_ (Z.of_nat (length (data bk))) then
          let src := drop (Z.to_nat off) (take (Z.to_nat end_) (data bk)) in
          let '(b', c) := copy_into b (Z.to_nat n) (length b) src in
          Read_loop fuel' m1 r1 b' addr (wrap64 (n + Z.of_nat c))
        else panic "slice bounds out of range"
    end
  else Ok (n, b, m, r).

(** [Memory.Read(b, addr)]: the count, the error (always nil), the buffer as
    filled, and the new state. *)
Definition Read (m : Memory) (r : Rand.rng) (b : list byte) (addr : Z)
  : result (Z * option error * list byte * Memory * Rand.rng) :=
  '(n, b', m', r') ← Read_loop (length b) m r b addr 0;
  Ok (n, None, b', m', r').

(** Every block holds an array of [BlockSize] bytes. *)
Definition wf (m : Memory) : Prop :=
  forall k bk, blocks m !! k = Some bk -> length (data bk) = Z.to_nat BlockSize.

(** The byte stored at an address, if its block exists. *)
Definition byte_at (m : Memory) (a : Z) : option byte :=
  match blocks m !! (a / BlockSize) with
  | Some bk => data bk !! Z.to_nat (a mod BlockSize)
  | None => None
  end.

End Mem.

(* ===================================================================== *)
(** ** Registers, instructions and the opcode table (asm.go) *)
(* ===================================================================== *)

Module Asm.

(** [strings.HasPrefix] and [strings.HasSuffix]. *)
Definition HasPrefix (s pre : string) : bool := String.prefix pre s.

Definition HasSuffix (s suf : string) : bool :=
  let ls := String.length s in
  let lf := String.length suf in
  (lf <=? ls)%nat && String.eqb (String.substring (ls - lf) lf s) suf.

(** [type Register uint8]: the constants are consecutive, from [X0 = 0]. *)
Definition Register := Z.

Definition X0 : Register := 0.
Definition X16 : Register := 16.
Definition X17 : Register := 17.
Definition X28 : Register := 28.
Definition X29 : Register := 29.
Definition X30 : Register := 30.
Definition XZR : Register := 31.
Definition S0 : Register := 32.
Definition D0 : Register := 64.

Definition IP0 : Register := X16.
Definition IP1 : Register := X17.
Definition SP : Register := X28.
Definition FP : Register := X29.
Definition LR : Register := X30.

Module Addr.

Record t := mk { Reg : Register; Offset : Z; Label : string }.

Definition zero : t := {| Reg := 0; Offset := 0; Label := "" |}.

Definition with_Reg (a : t) (r : Register) : t :=
  {| Reg := r; Offset := Offset a; Label := Label a |}.

Definition with_Offset (a : t) (o : Z) : t :=
  {| Reg := Reg a; Offset := o; Label := Label a |}.

Definition with_Label (a : t) (l : string) : t :=
  {| Reg := Reg a; Offset := Offset a; Label := l |}.

End Addr.

Record Instruction := {
  Op : string;        (* mnemonic *)
  To : Addr.t;        (* destination *)
  From : Addr.t;      (* 1st operand *)
  Reg : Register;     (* 2nd operand register *)
  Imm : Z;            (* 2nd operand for iformat *)
  Label : string
}.

(** The zero value of [Instruction]. *)
Definition zero : Instruction :=
  {| Op := ""; To := Addr.zero; From := Addr.zero; Reg := 0; Imm := 0;
     Label := "" |}.

Definition with_Op (i : Instruction) (x : string) : Instruction :=
  {| Op := x; To := To i; From := From i; Reg := Reg i; Imm := Imm i;
     Label := Label i |}.
Definition with_To (i : Instruction) (x : Addr.t) : Instruction :=
  {| Op := Op i; To := x; From := From i; Reg := Reg i; Imm := Imm i;
     Label := Label i |}.
Definition with_From (i : Instruction) (x : Addr.t) : Instruction :=
  {| Op := Op i; To := To i; From := x; Reg := Reg i; Imm := Imm i;
     Label := Label i |}.
Definition with_Reg (i : Instruction) (x : Register) : Instruction :=
  {| Op := Op i; To := To i; From := From i; Reg := x; Imm := Imm i;
     Label := Label i |}.
Definition with_Imm (i : Instruction) (x : Z) : Instruction :=
  {| Op := Op i; To := To i; From := From i; Reg := Reg i; Imm := x;
     Label := Label i |}.
Definition with_Label (i : Instruction) (x : string) : Instruction :=
  {| Op := Op i; To := To i; From := From i; Reg := Reg i; Imm := Imm i;
     Label := x |}.

(** [registerPrefix]: a Go [case] with an empty body does nothing and does
    not fall through, so [LDURS] and [LDURD] end at the final [return 'X']. *)
Definition registerPrefix (i : Instruction) : ascii :=
  if HasPrefix (Op i) "F" then
    if HasSuffix (Op i) "S" then "S"%char else "D"%char
  else if String.eqb (Op i) "LDURS" then "X"%char
  else if String.eqb (Op i) "STURS" then "S"%char
  else if String.eqb (Op i) "LDURD" then "X"%char
  else if String.eqb (Op i) "STURD" then "D"%char
  else "X"%char.

(** The operand formats.  [imformat] is the empty [insFormat{}], whose
    parser is nil. *)
Inductive insFormat :=
  rformat | iformat | dformat | bformat | cbformat | iwformat | imformat.

Definition opcodes_table : list (string * insFormat) :=
  [ ("ADD", rformat); ("ADDI", iformat); ("ADDIS", iformat); ("ADDS", rformat);
    ("AND", rformat); ("ANDI", iformat); ("ANDIS", iformat); ("ANDS", rformat);
    ("B", bformat); ("B.EQ", bformat); ("B.NE", bformat); ("B.LT", bformat);
    ("B.LE", bformat); ("B.GT", bformat); ("B.GE", bformat); ("B.LO", bformat);
    ("B.LS", bformat); ("B.HI", bformat); ("B.HS", bformat); ("B.MI", bformat);
    ("B.PL", bformat); ("B.VS", bformat); ("B.VC", bformat); ("BL", bformat);
    ("BR", bformat); ("CBNZ", cbformat); ("CBZ", cbformat); ("EOR", rformat);
    ("EORI", iformat); ("LDUR", dformat); ("LDURB", dformat);
    ("LDURH", dformat); ("LDURS", dformat); ("LDXR", dformat);
    ("LSL", iformat); ("LSR", iformat); ("MOVK", imformat); ("MOVZ", imformat);
    ("ORR", rformat); ("ORRI", iformat); ("STUR", dformat); ("STURB", dformat);
    ("STURH", dformat); ("STURW", dformat); ("STXR", dformat); ("SUB", rformat);
    ("SUBI", iformat); ("SUBIS", iformat); ("SUBS", rformat);
    ("FADDS", rformat); ("FADDD", rformat); ("FCMPS", rformat);
    ("FCMPD", rformat); ("FDIVS", rformat); ("FDIVD", rformat);
    ("FMULS", rformat); ("FMULD", rformat); ("FSUBD", rformat);
    ("LDURD", dformat); ("MUL", rformat); ("SDIV", rformat);
    ("SMULH", rformat); ("STURS", dformat); ("STURD", dformat);
    ("UDIV", rformat); ("UMULH", rformat) ]%string.

(** [opcodes[op]]: the keys of the table are distinct, so the map is the
    table read as an association list. *)
Fixpoint assoc {V} (k : string) (l : list (string * V)) : option V :=
  match l with
  | [] => None
  | (k', v) :: l' => if String.eqb k k' then Some v else assoc k l'
  end.

Definition opcodes (op : string) : option insFormat := assoc op opcodes_table.

Definition Program := list Instruction.

Definition S31 : Register := 63.
Definition D31 : Register := 95.

(** [Register.String]; [%d] prints the number in decimal. *)
Definition Register_String (r : Register) : string :=
  if r <=? X30 then "X" +:+ pretty r
  else if r =? XZR then "XZR"
  else if (S0 <=? r) && (r <=? S31) then "S" +:+ pretty (r - S0)
  else if (D0 <=? r) && (r <=? D31) then "D" +:+ pretty (r - D0)
  else "invalid".

(** The prefix [expectRegister] is given for the bank of a register. *)
Definition bank (r : Register) : ascii :=
  if r <? S0 then "X"%char else if r <? D0 then "S"%char else "D"%char.

End Asm.

(* ===================================================================== *)
(** ** The lexer (lexer.go) *)
(* ===================================================================== *)

Module Lex.

Inductive itemType :=
  | itemEOF | itemError | itemName | itemInteger
  | itemColon | itemComma | itemLbrack | itemRbrack.

#[export] Instance itemType_eq_dec : EqDecision itemType.
Proof. solve_decision. Defined.

Record item := { typ : itemType; text : string }.

(** The values a [stateFn] variable takes: the three state functions, or nil. *)
Inductive stateFn := StInput | StName | StInteger | StNil.

(** The lexer.  [items] is the buffered channel of capacity two, oldest item
    first.  The cursor fields are Go [int]s that never go negative (every
    [backup] undoes a [next]), so they are [nat].  The mutex is not
    modelled. *)
Record lexer := {
  input : string;
  start : nat;
  pos : nat;
  width : nat;
  state : stateFn;
  items : list item
}.

Definition items_cap : nat := 2.

Definition lex (inp : string) : lexer :=
  {| input := inp; start := 0; pos := 0; width := 0; state := StInput;
     items := [] |}.

Definition set_cursor (l : lexer) (st p w : nat) : lexer :=
  {| input := input l; start := st; pos := p; width := w; state := state l;
     items := items l |}.

Definition set_state (l : lexer) (s : stateFn) : lexer :=
  {| input := input l; start := start l; pos := pos l; width := width l;
     state := s; items := items l |}.

Definition set_items (l : lexer) (q : list item) : lexer :=
  {| input := input l; start := start l; pos := pos l; width := width l;
     state := state l; items := q |}.

(** Runes are code points, [eof] is [-1].  The model reads ASCII input: a
    byte of [0x80] or more would start a multi-byte (or invalid) UTF-8
    sequence, which is outside the model ([NonASCII]). *)
Definition eof : Z := -1.

Definition rune_of (c : ascii) : Z := Z.of_nat (nat_of_ascii c).

Definition string_of_rune (r : Z) : string :=
  String (ascii_of_nat (Z.to_nat r)) EmptyString.

(** [unicode.IsSpace], [unicode.IsLetter], [unicode.IsDigit] below 128. *)
Definition IsSpace (r : Z) : bool := ((9 <=? r) && (r <=? 13)) || (r =? 32).

Definition IsLetter (r : Z) : bool :=
  ((65 <=? r) && (r <=? 90)) || ((97 <=? r) && (r <=? 122)).

Definition IsDigit (r : Z) : bool := (48 <=? r) && (r <=? 57).

(** [next] returns the next rune in the input. *)
Definition next (l : lexer) : result (Z * lexer) :=
  if (String.length (input l) <=? pos l)%nat then
    Ok (eof, set_cursor l (start l) (pos l) 0)
  else
    match String.get (pos l) (input l) with
    | Some c =>
        if (rune_of c <? 128) then
          Ok (rune_of c, set_cursor l (start l) (pos l + 1) 1)
        else Fault NonASCII
    | None => panic "index out of range"
    end.

(** [backup] steps back one rune. *)
Definition backup (l : lexer) : lexer :=
  set_cursor l (start l) (pos l - width l) (width l).

(** [ignore] skips over the pending input before this point. *)
Definition ignore (l : lexer) : lexer :=
  set_cursor l (pos l) (pos l) (width l).

(** A send on the channel: with two items pending and the only receiver
    being the caller itself, it blocks for ever. *)
Definition send (l : lexer) (i : item) : result lexer :=
  if (items_cap <=? length (items l))%nat then Fault Deadlock
  else Ok (set_items l (items l ++ [i])).

Definition emit (t : itemType) (l : lexer) : result lexer :=
  l' ← send l {| typ := t;
                 text := String.substring (start l) (pos l - start l) (input l) |};
  Ok (set_cursor l' (pos l') (pos l') (width l')).

(** [errorf] sends an error item and returns nil as the next state. *)
Definition errorf (msg : string) (l : lexer) : result (stateFn * lexer) :=
  l' ← send l {| typ := itemError; text := msg |};
  Ok (StNil, l').

(** The loop of [ignoreLine]: read up to a newline or the end of input. *)
Fixpoint ignoreLine_loop (fuel : nat) (l : lexer) : result (Z * lexer) :=
  '(r, l1) ← next l;
  if (r =? 10) || (r =? eof) then Ok (r, l1)
  else match fuel with
       | O => Fault OutOfFuel
       | S fuel' => ignoreLine_loop fuel' l1
       end.

Definition ignoreLine (l : lexer) : result lexer :=
  '(r, l1) ← ignoreLine_loop (String.length (input l)) l;
  let l2 := if r =? eof then backup l1 else l1 in
  Ok (set_cursor l2 (pos l2) (pos l2) (width l2)).

(** [strings.IndexRune(valid, r) >= 0] *)
Definition in_valid (valid : string) (r : Z) : bool :=
  (0 <=? r) && (r <? 128)
  && existsb (fun c => rune_of c =? r) (list_ascii_of_string valid).

(** [accept] consumes the next rune if it is from the valid set. *)
Definition accept (valid : string) (l : lexer) : result (bool * lexer) :=
  '(r, l1) ← next l;
  if in_valid valid r then Ok (true, l1) else Ok (false, backup l1).

(** [acceptRange] consumes runes while one of the predicates holds. *)
Fixpoint acceptRange_loop (fuel : nat) (fns : list (Z -> bool)) (l : lexer)
  : result lexer :=
  '(r, l1) ← next l;
  if existsb (fun fn => fn r) fns then
    match fuel with
    | O => Fault OutOfFuel
    | S fuel' => acceptRange_loop fuel' fns l1
    end
  else Ok (backup l1).

Definition acceptRange (fns : list (Z -> bool)) (l : lexer) : result lexer :=
  acceptRange_loop (String.length (input l)) fns l.

Definition lexName (l : lexer) : result (stateFn * lexer) :=
  l1 ← acceptRange [IsLetter; IsDigit] l;
  '(_, l2) ← accept "." l1;
  l3 ← acceptRange [IsLetter; IsDigit] l2;
  l4 ← emit itemName l3;
  Ok (StInput, l4).

Definition lexInteger (l : lexer) : result (stateFn * lexer) :=
  '(_, l1) ← accept "#" l;
  l2 ← acceptRange [IsDigit] l1;
  l3 ← emit itemInteger l2;
  Ok (StInput, l3).

(** [lexInput]: one call runs until it meets the start of a name or of an
    integer, the end of the input, or an error; it may send several
    punctuation items on the way. *)
Fixpoint lexInput_loop (fuel : nat) (l : lexer) : result (stateFn * lexer) :=
  let continue (l' : lexer) :=
    match fuel with
    | O => Fault OutOfFuel
    | S fuel' => lexInput_loop fuel' l'
    end in
  '(r, l1) ← next l;
  if r =? eof then l2 ← emit itemEOF l1; Ok (StNil, l2)
  else if IsSpace r then continue (ignore l1)
  else if r =? 10 then continue (ignore l1)
  else if r =? 59 (* ; *) then l2 ← ignoreLine l1; continue l2
  else if r =? 58 (* : *) then l2 ← emit itemColon l1; continue l2
  else if r =? 44 (* , *) then l2 ← emit itemComma l1; continue l2
  else if r =? 91 (* [ *) then l2 ← emit itemLbrack l1; continue l2
  else if r =? 93 (* ] *) then l2 ← emit itemRbrack l1; continue l2
  else if r =? 47 (* / *) then
    '(nr, l2) ← next l1;
    if nr =? 47 then l3 ← ignoreLine l2; continue l3
    else errorf ("unexpected '" +:+ string_of_rune r +:+ "'") l2
  else if r =? 35 (* # *) then
    '(nr, l2) ← next l1;
    if IsDigit nr then Ok (StInteger, backup (backup l2))
    else errorf "missing digit" l2
  else if IsLetter r then Ok (StName, backup l1)
  else if IsDigit r then Ok (StInteger, backup l1)
  else errorf ("unexpected '" +:+ string_of_rune r +:+ "'") l1.

Definition lexInput (l : lexer) : result (stateFn * lexer) :=
  lexInput_loop (String.length (input l)) l.

(** Calling the state function held in [l.state]; calling nil panics. *)
Definition call_state (l : lexer) : result (stateFn * lexer) :=
  match state l with
  | StInput => lexInput l
  | StName => lexName l
  | StInteger => lexInteger l
  | StNil => panic "invalid memory address or nil pointer dereference"
  end.

(** [nextItem]: receive an item if one is pending, otherwise run the state
    function and try again.  A state function that sends nothing returns
    [lexName] or [lexInteger], which send; three rounds always suffice. *)
Fixpoint nextItem_loop (fuel : nat) (l : lexer) : result (item * lexer) :=
  match items l with
  | i :: q => Ok (i, set_items l q)
  | [] =>
      match fuel with
      | O => Fault OutOfFuel
      | S fuel' =>
          '(s, l1) ← call_state l;
          nextItem_loop fuel' (set_state l1 s)
      end
  end.

Definition nextItem (l : lexer) : result (item * lexer) := nextItem_loop 3 l.

(** A rune a name is made of. *)
Definition name_rune (c : ascii) : bool :=
  IsLetter (rune_of c) || IsDigit (rune_of c).

(** A text that is one plain name: a letter, then letters and digits. *)
Definition name_text (s : string) : bool :=
  match s with
  | EmptyString => false
  | String c s' =>
      IsLetter (rune_of c) && forallb name_rune (list_ascii_of_string s')
  end.

End Lex.

(* ===================================================================== *)
(** ** The parser (parser.go) *)
(* ===================================================================== *)

Module Parse.
Import Asm Lex.

(** A Go function returning [(T, error)] returns a [T * option error];
    [None] is the nil error. *)
Definition quote : string := String (ascii_of_nat 34) EmptyString.

(** [strconv.ParseUint(s, 10, bitSize)]: the first byte that is not a
    decimal digit is a syntax error; a value above [2^bitSize - 1] is a range
    error, reported with the largest value. *)
Definition syntaxError (s : string) : error :=
  Errorf ("strconv.ParseUint: parsing " +:+ quote +:+ s +:+ quote
          +:+ ": invalid syntax").

Definition rangeError (s : string) : error :=
  Errorf ("strconv.ParseUint: parsing " +:+ quote +:+ s +:+ quote
          +:+ ": value out of range").

Fixpoint ParseUint_loop (s0 : string) (maxVal : Z) (cs : list ascii) (n : Z)
  : Z * option error :=
  match cs with
  | [] => (n, None)
  | c :: cs' =>
      let r := rune_of c in
      if IsDigit r then
        let n1 := n * 10 + (r - 48) in
        if maxVal <? n1 then (maxVal, Some (rangeError s0))
        else ParseUint_loop s0 maxVal cs' n1
      else (0, Some (syntaxError s0))
  end.

Definition ParseUint (s : string) (bitSize : Z) : Z * option error :=
  match s with
  | EmptyString => (0, Some (syntaxError s))
  | _ => ParseUint_loop s (2 ^ bitSize - 1) (list_ascii_of_string s) 0
  end.

(** The parser: its lexer ([None] before [Use]) and the peeked item. *)
Record Parser := { l : option lexer; pk : option item }.

Definition new : Parser := {| l := None; pk := None |}.

(** [Use] on a reader that yields the text [src]. *)
Definition Use (p : Parser) (src : string) : Parser :=
  {| l := Some (lex src); pk := pk p |}.

Definition lexer_nextItem (p : Parser) : result (item * Parser) :=
  match l p with
  | None => panic "invalid memory address or nil pointer dereference"
  | Some lx =>
      '(i, lx') ← Lex.nextItem lx;
      Ok (i, {| l := Some lx'; pk := pk p |})
  end.

Definition nextItem (p : Parser) : result (item * Parser) :=
  match pk p with
  | Some i => Ok (i, {| l := l p; pk := None |})
  | None => lexer_nextItem p
  end.

(** [peek] asks the lexer for a fresh item every time and overwrites [pk]. *)
Definition peek (p : Parser) : result (item * Parser) :=
  '(i, p1) ← lexer_nextItem p;
  Ok (i, {| l := l p1; pk := Some i |}).

Definition expect (ty : itemType) (p : Parser)
  : result (string * option error * Parser) :=
  '(t, p1) ← nextItem p;
  if decide (typ t = itemEOF) then Ok ("", Some EOF, p1)
  else if decide (typ t = ty) then Ok (text t, None, p1)
  else Ok ("", Some (Errorf ("unexpected token '" +:+ text t +:+ "'")), p1).

Definition has (ty : itemType) (p : Parser) : result (bool * Parser) :=
  '(i, p1) ← peek p;
  Ok (bool_decide (typ i = ty), p1).

Definition wrap_err (slot : string) (e : error) : error :=
  Errorf (slot +:+ ": " +:+ error_string e).

(** [s[1:]] *)
Definition tail_string (s : string) : string :=
  String.substring 1 (String.length s - 1) s.

Definition not_a_register (t : string) : error :=
  Errorf ("not a register '" +:+ t +:+ "'").

Definition expectRegister (prefix : ascii) (p : Parser)
  : result (Register * option error * Parser) :=
  '(t, err, p1) ← expect itemName p;
  match err with
  | Some e => Ok (0, Some e, p1)
  | None =>
      if (3 <? String.length t)%nat then Ok (0, Some (not_a_register t), p1)
      else
        match
          (if Ascii.eqb prefix "X" then Some (X0, 30)
           else if Ascii.eqb prefix "S" then Some (S0, 31)
           else if Ascii.eqb prefix "D" then Some (D0, 31)
           else None)
        with
        | None =>
            Ok (0, Some (Errorf ("expecting register type '"
                                 +:+ String prefix EmptyString +:+ "'")), p1)
        | Some (base, max) =>
            let special :=
              if Ascii.eqb prefix "X" then
                if String.eqb t "SP" then Some SP
                else if String.eqb t "FP" then Some FP
                else if String.eqb t "LR" then Some LR
                else if String.eqb t "XZR" then Some XZR
                else if String.eqb t "IP0" then Some IP0
                else if String.eqb t "IP1" then Some IP1
                else None
              else None in
            match special with
            | Some r => Ok (r, None, p1)
            | None =>
                match String.get 0 t with
                | None => panic "index out of range"
                | Some c0 =>
                    if negb (Ascii.eqb c0 prefix)
                    then Ok (0, Some (not_a_register t), p1)
                    else
                      let '(n, perr) := ParseUint (tail_string t) 8 in
                      if bool_decide (perr <> None) || (max <? n)
                      then Ok (0, Some (not_a_register t), p1)
                      else Ok ((base + n) mod 256, None, p1)
                end
            end
        end
  end.

(** [expectImmediate] ignores its [bitsize] and always parses 32 bits. *)
Definition expectImmediate (bitsize : Z) (p : Parser)
  : result (Z * option error * Parser) :=
  '(imm, err, p1) ← expect itemInteger p;
  match err with
  | Some e => Ok (0, Some (Errorf ("not an integer: " +:+ error_string e)), p1)
  | None =>
      match String.get 0 imm with
      | None => panic "index out of range"
      | Some c0 =>
          let imm' := if Ascii.eqb c0 "#" then tail_string imm else imm in
          let '(n, perr) := ParseUint imm' 32 in
          match perr with
          | Some e => Ok (0, Some (Errorf (error_string e)), p1)
          | None => Ok (n, None, p1)
          end
      end
  end.

Definition expectOffset (i : Instruction) (p : Parser)
  : result (Addr.t * option error * Parser) :=
  let addr := Addr.zero in
  '(_, err, p1) ← expect itemLbrack p;
  match err with
  | Some e => Ok (addr, Some e, p1)
  | None =>
      '(r, err, p2) ← expectRegister (registerPrefix i) p1;
      let addr := Addr.with_Reg addr r in
      match err with
      | Some e => Ok (addr, Some e, p2)
      | None =>
          '(_, err, p3) ← expect itemComma p2;
          match err with
          | Some e => Ok (addr, Some e, p3)
          | None =>
              '(o, err, p4) ← expectImmediate 32 p3;
              let addr := Addr.with_Offset addr o in
              match err with
              | Some e => Ok (addr, Some (wrap_err "offset" e), p4)
              | None =>
                  '(_, err, p5) ← expect itemRbrack p4;
                  match err with
                  | Some e => Ok (addr, Some e, p5)
                  | None => Ok (addr, None, p5)
                  end
              end
          end
      end
  end.

Definition expectAddr (i : Instruction) (p : Parser)
  : result (Addr.t * option error * Parser) :=
  let addr := Addr.zero in
  '(isint, p1) ← has itemInteger p;
  match isint with
  | true =>
      (* PC-relative address *)
      '(off, err, p2) ← expect itemInteger p1;
      match err with
      | Some e => Ok (addr, Some (wrap_err "to" e), p2)
      | None =>
          let '(n, perr) := ParseUint off 64 in
          let addr := Addr.with_Offset addr n in
          match perr with
          | Some e => Ok (addr, Some (wrap_err "to" e), p2)
          | None => Ok (addr, None, p2)
          end
      end
  | false =>
      '(lbl, err, p2) ← expect itemName p1;
      let addr := Addr.with_Label addr lbl in
      match err with
      | Some e => Ok (addr, Some (wrap_err "to" e), p2)
      | None => Ok (addr, None, p2)
      end
  end.

(** The format parsers fill the instruction they are handed and return
    the error; the instruction comes back as far as it was filled. *)
Definition formatResult : Type := result (Instruction * option error * Parser).

Definition rformatParser (i : Instruction) (p : Parser) : formatResult :=
  '(r, err, p1) ← expectRegister (registerPrefix i) p;
  let i := with_To i (Addr.with_Reg (To i) r) in
  match err with
  | Some e => Ok (i, Some (wrap_err "to" e), p1)
  | None =>
      '(_, err, p2) ← expect itemComma p1;
      match err with
      | Some e => Ok (i, Some e, p2)
      | None =>
          '(r, err, p3) ← expectRegister (registerPrefix i) p2;
          let i := with_From i (Addr.with_Reg (From i) r) in
          match err with
          | Some e => Ok (i, Some (wrap_err "first operand" e), p3)
          | None =>
              '(_, err, p4) ← expect itemComma p3;
              match err with
              | Some e => Ok (i, Some e, p4)
              | None =>
                  '(r, err, p5) ← expectRegister (registerPrefix i) p4;
                  let i := with_Reg i r in
                  match err with
                  | Some e => Ok (i, Some (wrap_err "second operand" e), p5)
                  | None => Ok (i, None, p5)
                  end
              end
          end
      end
  end.

Definition dformatParser (i : Instruction) (p : Parser) : formatResult :=
  '(r, err, p1) ← expectRegister (registerPrefix i) p;
  let i := with_To i (Addr.with_Reg (To i) r) in
  match err with
  | Some e => Ok (i, Some (wrap_err "to" e), p1)
  | None =>
      '(_, err, p2) ← expect itemComma p1;
      match err with
      | Some e => Ok (i, Some e, p2)
      | None =>
          '(a, err, p3) ← expectOffset i p2;
          let i := with_From i a in
          match err with
          | Some e => Ok (i, Some (wrap_err "from" e), p3)
          | None => Ok (i, None, p3)
          end
      end
  end.

Definition iformatParser (i : Instruction) (p : Parser) : formatResult :=
  '(r, err, p1) ← expectRegister (registerPrefix i) p;
  let i := with_To i (Addr.with_Reg (To i) r) in
  match err with
  | Some e => Ok (i, Some (wrap_err "to" e), p1)
  | None =>
      '(_, err, p2) ← expect itemComma p1;
      match err with
      | Some e => Ok (i, Some e, p2)
      | None =>
          '(r, err, p3) ← expectRegister (registerPrefix i) p2;
          let i := with_From i (Addr.with_Reg (From i) r) in
          match err with
          | Some e => Ok (i, Some (wrap_err "first operand" e), p3)
          | None =>
              '(_, err, p4) ← expect itemComma p3;
              match err with
              | Some e => Ok (i, Some e, p4)
              | None =>
                  '(n, err, p5) ← expectImmediate 16 p4;
                  let i := with_Imm i n in
                  match err with
                  | Some e => Ok (i, Some (wrap_err "immediate" e), p5)
                  | None => Ok (i, None, p5)
                  end
              end
          end
      end
  end.

Definition bformatParser (i : Instruction) (p : Parser) : formatResult :=
  if String.eqb (Op i) "BR" then
    '(r, err, p1) ← expectRegister (registerPrefix i) p;
    let i := with_To i (Addr.with_Reg (To i) r) in
    match err with
    | Some e => Ok (i, Some (wrap_err "to" e), p1)
    | None => Ok (i, None, p1)
    end
  else
    '(a, err, p1) ← expectAddr i p;
    let i := with_To i a in
    match err with
    | Some e => Ok (i, Some (wrap_err "to" e), p1)
    | None => Ok (i, None, p1)
    end.

Definition cbformatParser (i : Instruction) (p : Parser) : formatResult :=
  '(r, err, p1) ← expectRegister (registerPrefix i) p;
  let i := with_From i (Addr.with_Reg (From i) r) in
  match err with
  | Some e => Ok (i, Some (wrap_err "from" e), p1)
  | None =>
      '(_, err, p2) ← expect itemComma p1;
      match err with
      | Some e => Ok (i, Some e, p2)
      | None =>
          '(lbl, err, p3) ← expect itemName p2;
          let i := with_To i (Addr.with_Label (To i) lbl) in
          match err with
          | Some e => Ok (i, Some (wrap_err "to" e), p3)
          | None => Ok (i, None, p3)
          end
      end
  end.

Definition iwformatParser (i : Instruction) (p : Parser) : formatResult :=
  '(r, err, p1) ← expectRegister (registerPrefix i) p;
  let i := with_To i (Addr.with_Reg (To i) r) in
  match err with
  | Some e => Ok (i, Some (wrap_err "to" e), p1)
  | None =>
      '(_, err, p2) ← expect itemComma p1;
      match err with
      | Some e => Ok (i, Some e, p2)
      | None =>
          '(n, err, p3) ← expectImmediate 32 p2;
          let i := with_Imm i n in
          match err with
          | Some e => Ok (i, Some (wrap_err "immediate" e), p3)
          | None => Ok (i, None, p3)
          end
      end
  end.

(** The [p] field of an [insFormat]; [None] is the nil parser. *)
Definition parser_of (f : insFormat)
  : option (Instruction -> Parser -> formatResult) :=
  match f with
  | rformat => Some rformatParser
  | iformat => Some iformatParser
  | dformat => Some dformatParser
  | bformat => Some bformatParser
  | cbformat => Some cbformatParser
  | iwformat => Some iwformatParser
  | imformat => None
  end.

(** [Parser.Next]: the next instruction, or an error. *)
Definition Next (p : Parser) : formatResult :=
  let i := Asm.zero in
  '(name, err, p1) ← expect itemName p;
  match err with
  | Some e => Ok (i, Some e, p1)
  | None =>
      '(colon, p2) ← has itemColon p1;
      '(i, err, p3) ←
        match colon with
        | true =>
            '(_, _, p3) ← expect itemColon p2;
            let i := with_Label i name in
            '(op, err, p4) ← expect itemName p3;
            match err with
            | Some e => Ok (i, Some e, p4)
            | None => Ok (with_Op i op, None, p4)
            end
        | false => Ok (with_Op i name, None, p2)
        end;
      match err with
      | Some e => Ok (i, Some e, p3)
      | None =>
          match opcodes (Op i) with
          | None => Ok (i, Some (Errorf ("opcode not supported: " +:+ Op i)), p3)
          | Some f =>
              match parser_of f with
              | None => panic ("opcode: " +:+ Op i +:+ " missing parser")
              | Some fp => fp i p3
              end
          end
      end
  end.

(** The loop of the driver ([main]): instructions are appended until [Next]
    reports an error; [io.EOF] ends the program cleanly, any other error is
    fatal.  Every successful [Next] consumes input, so the length of the text
    bounds the number of rounds. *)
Fixpoint parse_loop (fuel : nat) (p : Parser) (prog : Program)
  : result (Program * option error) :=
  '(i, err, p1) ← Next p;
  match err with
  | Some EOF => Ok (prog, None)
  | Some e => Ok (prog, Some e)
  | None =>
      match fuel with
      | O => Fault OutOfFuel
      | S fuel' => parse_loop fuel' p1 (prog ++ [i])
      end
  end.

Definition parse_program (src : string) : result (Program * option error) :=
  parse_loop (String.length src) (Use new src) [].

(** Whether [expectRegister], told the bank of register [n], reads the name
    [Register.String] prints for it back as [n]. *)
Definition reparsed (n : nat) : bool :=
  match expectRegister (bank (Z.of_nat n))
          (Use new (Register_String (Z.of_nat n))) with
  | Ok (r, None, _) => r =? Z.of_nat n
  | _ => false
  end.

End Parse.

(* ===================================================================== *)
(** ** The processor (cpu.go) *)
(* ===================================================================== *)

Module Cpu.
Import Asm.

(** [condFlag]: one bit per flag, [1 << iota]. *)
Definition flagN : Z := 1.
Definition flagZ : Z := 2.
Definition flagV : Z := 4.
Definition flagC : Z := 8.

(** The CPU.  [Registers] is the array [[32]uint64]; [Memory] is a pointer,
    nil ([None]) until [Load]; a nil [labels] map reads like the empty one. *)
Record CPU := {
  PC : Z;
  Registers : list Z;
  Flags : Z;
  Err : option error;
  Memory : option Mem.Memory;
  labels : gmap string Z;
  prog : list Instruction
}.

(** The zero value [CPU{}]. *)
Definition zero : CPU :=
  {| PC := 0; Registers := replicate 32 0; Flags := 0; Err := None;
     Memory := None; labels := ∅; prog := [] |}.

Definition with_PC (c : CPU) (x : Z) : CPU :=
  {| PC := x; Registers := Registers c; Flags := Flags c; Err := Err c;
     Memory := Memory c; labels := labels c; prog := prog c |}.
Definition with_Registers (c : CPU) (x : list Z) : CPU :=
  {| PC := PC c; Registers := x; Flags := Flags c; Err := Err c;
     Memory := Memory c; labels := labels c; prog := prog c |}.
Definition with_Flags (c : CPU) (x : Z) : CPU :=
  {| PC := PC c; Registers := Registers c; Flags := x; Err := Err c;
     Memory := Memory c; labels := labels c; prog := prog c |}.
Definition with_Memory (c : CPU) (x : option Mem.Memory) : CPU :=
  {| PC := PC c; Registers := Registers c; Flags := Flags c; Err := Err c;
     Memory := x; labels := labels c; prog := prog c |}.

(** A state the Go types allow: 32 registers, all fields within their
    unsigned range, a program no longer than a slice can be. *)
Record wf (c : CPU) : Prop := {
  wf_regs : length (Registers c) = 32%nat;
  wf_vals : Forall (fun v => 0 <= v < 2 ^ 64) (Registers c);
  wf_PC : 0 <= PC c < 2 ^ 64;
  wf_prog : Z.of_nat (length (prog c)) < 2 ^ 63
}.

(** [cpu.Registers[r]], read and written; an index past the array panics. *)
Definition reg_get (c : CPU) (r : Register) : result Z :=
  match Registers c !! Z.to_nat r with
  | Some v => Ok v
  | None => panic "index out of range"
  end.

Definition reg_set (c : CPU) (r : Register) (v : Z) : result CPU :=
  if (Z.to_nat r <? length (Registers c))%nat
  then Ok (with_Registers c (<[Z.to_nat r := v]> (Registers c)))
  else panic "index out of range".

(** [Load]: fresh memory, every register drawn from the random source, the
    label map rebuilt (a later line with the same label wins).  [PC] and
    [Flags] are left as they are. *)
Fixpoint draw (n : nat) (r : Rand.rng) : list Z * Rand.rng :=
  match n with
  | O => ([], r)
  | S n' =>
      let '(v, r1) := Rand.Uint64 r in
      let '(vs, r2) := draw n' r1 in
      (v :: vs, r2)
  end.

Fixpoint index_labels (i : Z) (p : Program) (m : gmap string Z)
  : gmap string Z :=
  match p with
  | [] => m
  | ins :: p' =>
      index_labels (i + 1) p'
        (if String.eqb (Label ins) "" then m else <[Label ins := wrap64 i]> m)
  end.

Definition Load (c : CPU) (r : Rand.rng) (p : Program)
  : CPU * Rand.rng * option error :=
  let '(regs, r') := draw (length (Registers c)) r in
  ({| PC := PC c; Registers := regs; Flags := Flags c; Err := Err c;
      Memory := Some Mem.empty; labels := index_labels 0 p ∅; prog := p |},
   r', None).

(** [valuesFor]: the destination and the two operand values.  The second
    operand is the immediate when the mnemonic ends in [I], otherwise the
    register [as.Reg]. *)
Definition valuesFor (c : CPU) (i : Instruction) : result (Register * Z * Z) :=
  if HasSuffix (Op i) "I" then
    a ← reg_get c (Addr.Reg (From i));
    Ok (Addr.Reg (To i), a, Imm i)
  else
    a ← reg_get c (Addr.Reg (From i));
    b ← reg_get c (Reg i);
    Ok (Addr.Reg (To i), a, b).

(** [setFlags].  The [switch] takes the first case that holds and every
    [fallthrough] runs the next body unconditionally; [v < 0] never holds of
    an unsigned value. *)
Definition setFlags (c : CPU) (i : Instruction) (carry : Z) : result CPU :=
  if negb (HasSuffix (Op i) "S") then Ok c
  else
    v ← reg_get c (Addr.Reg (To i));
    if v =? 0 then
      Ok (with_Flags c (Z.lor (Z.lor (Z.lor (Flags c) flagZ) flagN) flagC))
    else if v <? 0 then
      Ok (with_Flags c (Z.lor (Z.lor (Flags c) flagN) flagC))
    else if carry =? 1 then
      Ok (with_Flags c (Z.lor (Flags c) flagC))
    else Ok (with_Flags c 0).

(** [arith]: true when the instruction was an arithmetic one. *)
Definition arith (c : CPU) (i : Instruction) : result (bool * CPU) :=
  '(dst, x, y) ← valuesFor c i;
  if HasPrefix (Op i) "ADD" then
    let '(v, carry) := Add64 x y in
    c1 ← reg_set c dst v; c2 ← setFlags c1 i carry; Ok (true, c2)
  else if HasPrefix (Op i) "SUB" then
    let '(v, carry) := Sub64 x y in
    c1 ← reg_set c dst v; c2 ← setFlags c1 i carry; Ok (true, c2)
  else if HasPrefix (Op i) "EOR" then
    c1 ← reg_set c dst (Z.lxor x y); c2 ← setFlags c1 i 0; Ok (true, c2)
  else if HasPrefix (Op i) "ORR" then
    c1 ← reg_set c dst (Z.lor x y); c2 ← setFlags c1 i 0; Ok (true, c2)
  else if HasPrefix (Op i) "AND" then
    c1 ← reg_set c dst (Z.land x y); c2 ← setFlags c1 i 0; Ok (true, c2)
  else if String.eqb (Op i) "LSL" then
    c1 ← reg_set c dst (wrap64 (Z.shiftl x y)); Ok (true, c1)
  else if String.eqb (Op i) "LSR" then
    c1 ← reg_set c dst (Z.shiftr x y); Ok (true, c1)
  else if String.eqb (Op i) "MUL" then
    c1 ← reg_set c dst (wrap64 (x * y)); Ok (true, c1)
  else Ok (false, c).

(** [shouldBranch]: the masked flag bits are compared with the literals [0]
    and [1], and with each other. *)
Definition shouldBranch (c : CPU) (cond : string) : bool * option error :=
  let val f := Z.land (Flags c) f in
  if String.eqb cond "EQ" then (val flagZ =? 1, None)
  else if String.eqb cond "NE" then (val flagZ =? 0, None)
  else if String.eqb cond "LT" then (negb (val flagN =? val flagV), None)
  else if String.eqb cond "LE" then
    (negb ((val flagZ =? 0) && (val flagN =? val flagV)), None)
  else if String.eqb cond "GT" then
    ((val flagZ =? 0) && (val flagN =? val flagV), None)
  else if String.eqb cond "GE" then (val flagN =? val flagV, None)
  else if String.eqb cond "LO" then (val flagC =? 0, None)
  else if String.eqb cond "LS" then
    (negb ((val flagZ =? 0) && (val flagC =? 1)), None)
  else if String.eqb cond "HI" then ((val flagZ =? 0) && (val flagC =? 1), None)
  else if String.eqb cond "HS" then (val flagC =? 1, None)
  else (false, Some (Errorf "unknown comparison")).

(** The target of a branch operand: the label's entry in the map (zero when
    the map has none), or [PC + Offset]. *)
Definition addr (c : CPU) (to : Addr.t) : Z :=
  if negb (String.eqb (Addr.Label to) "")
  then default 0 (labels c !! Addr.Label to)
  else wrap64 (PC c + Addr.Offset to).

(** [branch].  The case for [B] sets [PC] and then leaves the [switch]
    without returning, so it reaches the final [return false]. *)
Definition branch (c : CPU) (i : Instruction) : result (bool * CPU) :=
  if String.eqb (Op i) "B" then Ok (false, with_PC c (addr c (To i)))
  else if String.eqb (Op i) "BR" then
    v ← reg_get c (Addr.Reg (To i)); Ok (true, with_PC c v)
  else if String.eqb (Op i) "BL" then
    c1 ← reg_set c LR (PC c);
    Ok (true, with_PC c1 (addr c1 (To i)))
  else if String.eqb (Op i) "CBZ" then
    v ← reg_get c (Addr.Reg (To i));
    if negb (v =? 0) then Ok (true, with_PC c (wrap64 (PC c + 1)))
    else Ok (true, with_PC c (addr c (From i)))
  else if String.eqb (Op i) "CBNZ" then
    v ← reg_get c (Addr.Reg (To i));
    if v =? 0 then Ok (true, with_PC c (wrap64 (PC c + 1)))
    else Ok (true, with_PC c (addr c (From i)))
  else if HasPrefix (Op i) "B." then
    let cond := String.substring 2 (String.length (Op i) - 2) (Op i) in
    match shouldBranch c cond with
    | (_, Some e) => panic (error_string e)
    | (ok, None) =>
        if negb ok then Ok (true, with_PC c (wrap64 (PC c + 1)))
        else Ok (true, with_PC c (addr c (To i)))
    end
  else Ok (false, c).

(** [binary.LittleEndian.PutUint64] and [Uint64] on eight bytes. *)
Definition PutUint64 (v : Z) : list byte :=
  map (fun k => Rand.byte_of_Z (Z.shiftr v (8 * Z.of_nat k))) (seq 0 8).

Definition LEUint64 (d : list byte) : Z :=
  fold_right (fun b acc => Z.of_N (Byte.to_N b) + 256 * acc) 0 d.

(** [memory]: [STUR] and [LDUR].  The calls go through the [Memory] pointer,
    which panics when nil. *)
Definition memory (c : CPU) (r : Rand.rng) (i : Instruction)
  : result (bool * CPU * Rand.rng) :=
  if String.eqb (Op i) "STUR" then
    v ← reg_get c (Addr.Reg (To i));
    base ← reg_get c (Addr.Reg (From i));
    match Memory c with
    | None => panic "invalid memory address or nil pointer dereference"
    | Some m =>
        '(_, _, m', r') ←
          Mem.Write m r (PutUint64 v) (wrap64 (base + Addr.Offset (From i)));
        Ok (true, with_Memory c (Some m'), r')
    end
  else if String.eqb (Op i) "LDUR" then
    base ← reg_get c (Addr.Reg (From i));
    match Memory c with
    | None => panic "invalid memory address or nil pointer dereference"
    | Some m =>
        '(_, _, d, m', r') ←
          Mem.Read m r (replicate 8 "000"%byte)
            (wrap64 (base + Addr.Offset (From i)));
        c1 ← reg_set (with_Memory c (Some m')) (Addr.Reg (To i)) (LEUint64 d);
        Ok (true, c1, r')
    end
  else Ok (false, c, r).

(** [Step] runs the instruction that [PC] points to.  The three handlers are
    tried in order, each keeping whatever the ones before it did. *)
Definition Step (c : CPU) (r : Rand.rng) : result (bool * CPU * Rand.rng) :=
  if (length (prog c) =? 0)%nat then Ok (false, c, r)
  else
    match prog c !! Z.to_nat (PC c) with
    | None => panic "index out of range"
    | Some i =>
        '(ok, c1) ← arith c i;
        '(c', r') ←
          (if (ok : bool) then Ok (with_PC c1 (wrap64 (PC c1 + 1)), r)
           else
             '(ok, c2) ← branch c1 i;
             if (ok : bool) then Ok (c2, r)
             else
               '(ok, c3, r3) ← memory c2 r i;
               if (ok : bool) then Ok (with_PC c3 (wrap64 (PC c3 + 1)), r3)
               else Ok (c3, r3));
        Ok (PC c' <? Z.of_nat (length (prog c')), c', r')
    end.

(** The loop of the driver: [for cpu.Step() {}]. *)
Fixpoint run (fuel : nat) (c : CPU) (r : Rand.rng) : result (CPU * Rand.rng) :=
  match fuel with
  | O => Fault OutOfFuel
  | S fuel' =>
      '(more, c', r') ← Step c r;
      if (more : bool) then run fuel' c' r' else Ok (c', r')
  end.

(** The driver after parsing: a fresh CPU, [Load], then the loop. *)
Definition main (fuel : nat) (r : Rand.rng) (p : Program)
  : result (CPU * Rand.rng) :=
  let '(c, r', _) := Load zero r p in
  run fuel c r'.

(** *** Vocabulary for the statements about [Step] *)

(** A general-purpose register: an index into the register array. *)
Definition gp (r : Register) : Prop := 0 <= r < 32.

(** The mnemonics [arith], [branch] and [memory] respectively act on: the
    conditions of their [switch] statements, as tests on the mnemonic. *)
Definition arith_op (op : string) : bool :=
  HasPrefix op "ADD" || HasPrefix op "SUB" || HasPrefix op "EOR"
  || HasPrefix op "ORR" || HasPrefix op "AND"
  || String.eqb op "LSL" || String.eqb op "LSR" || String.eqb op "MUL".

Definition branch_op (op : string) : bool :=
  String.eqb op "B" || String.eqb op "BR" || String.eqb op "BL"
  || String.eqb op "CBZ" || String.eqb op "CBNZ" || HasPrefix op "B.".

Definition memory_op (op : string) : bool :=
  String.eqb op "STUR" || String.eqb op "LDUR".

(** The mnemonics of the opcode table that none of the three handlers acts
    on. *)
Definition unhandled_opcodes : list string :=
  [ "SDIV"; "UDIV"; "SMULH"; "UMULH";
    "FADDS"; "FADDD"; "FCMPS"; "FCMPD"; "FDIVS"; "FDIVD"; "FMULS"; "FMULD";
    "FSUBD";
    "LDURB"; "LDURH"; "LDURS"; "LDURD";
    "STURB"; "STURH"; "STURW"; "STURS"; "STURD";
    "LDXR"; "STXR"; "MOVZ"; "MOVK" ]%string.

(** [wf], as a test that can be run on a concrete state. *)
Definition wfb (c : CPU) : bool :=
  (length (Registers c) =? 32)%nat
  && forallb (fun v => (0 <=? v) && (v <? 2 ^ 64)) (Registers c)
  && (0 <=? PC c) && (PC c <? 2 ^ 64)
  && (Z.of_nat (length (prog c)) <? 2 ^ 63).

(** The arithmetic mnemonics of the opcode table that do not set flags:
    whether the second operand is the immediate, and the operation. *)
Definition plain_arith : list (string * (bool * (Z -> Z -> Z))) :=
  [ ("ADD", (false, fun x y => wrap64 (x + y)));
    ("ADDI", (true, fun x y => wrap64 (x + y)));
    ("SUB", (false, fun x y => wrap64 (x - y)));
    ("SUBI", (true, fun x y => wrap64 (x - y)));
    ("AND", (false, Z.land)); ("ANDI", (true, Z.land));
    ("ORR", (false, Z.lor)); ("ORRI", (true, Z.lor));
    ("EOR", (false, Z.lxor)); ("EORI", (true, Z.lxor));
    ("LSL", (false, fun x y => wrap64 (Z.shiftl x y)));
    ("LSR", (false, Z.shiftr));
    ("MUL", (false, fun x y => wrap64 (x * y))) ]%string.

End Cpu.

(* ===================================================================== *)
(** ** Program texts and machine states used in the examples *)
(* ===================================================================== *)

Module Examples.
Import Asm Cpu.

Definition nl : string := String (ascii_of_nat 10) EmptyString.

(** A text from its lines. *)
Definition lines (ls : list string) : string :=
  fold_right (fun l acc => l +:+ nl +:+ acc)%string EmptyString ls.

(** The random source that yields [f 0], [f 1], ... *)
Definition rng_of (f : nat -> Z) : Rand.rng := {| Rand.gen := f; Rand.cursor := 0 |}.

Definition zeros : Rand.rng := rng_of (fun _ => 0).
Definition ones : Rand.rng := rng_of (fun _ => 1).

(** The draw that makes register [k] hold [v] and every other one zero. *)
Definition only (k : nat) (v : Z) : nat -> Z :=
  fun n => if (n =? k)%nat then v else 0.

(** The machine the driver has after [Load], and the random source then. *)
Definition loaded (f : nat -> Z) (p : Program) : CPU :=
  (Load Cpu.zero (rng_of f) p).1.1.

Definition loaded_rng (f : nat -> Z) (p : Program) : Rand.rng :=
  (Load Cpu.zero (rng_of f) p).1.2.

(** Instructions as the format parsers fill them. *)
Definition rrr (op : string) (d n m : Register) : Instruction :=
  {| Op := op; To := Addr.with_Reg Addr.zero d;
     From := Addr.with_Reg Addr.zero n; Reg := m; Imm := 0; Label := "" |}.

Definition rri (op : string) (d n : Register) (imm : Z) : Instruction :=
  {| Op := op; To := Addr.with_Reg Addr.zero d;
     From := Addr.with_Reg Addr.zero n; Reg := 0; Imm := imm; Label := "" |}.

Definition dfm (op : string) (t n : Register) (off : Z) : Instruction :=
  {| Op := op; To := Addr.with_Reg Addr.zero t;
     From := {| Addr.Reg := n; Addr.Offset := off; Addr.Label := "" |};
     Reg := 0; Imm := 0; Label := "" |}.

Definition cbi (op : string) (t : Register) (lbl : string) : Instruction :=
  {| Op := op; To := Addr.with_Label Addr.zero lbl;
     From := Addr.with_Reg Addr.zero t; Reg := 0; Imm := 0; Label := "" |}.

Definition bto (op : string) (lbl : string) : Instruction :=
  {| Op := op; To := Addr.with_Label Addr.zero lbl; From := Addr.zero;
     Reg := 0; Imm := 0; Label := "" |}.

(** Scenario S1 of the specification. *)
Definition S1_text : string :=
  lines [ "       ADDI X1, XZR, #5";
          "       ADDI X2, XZR, #7";
          "       ADD  X3, X1, X2";
          "       STUR X3, [XZR, #0]" ]%string.

Definition S1_prog : Program :=
  [ rri "ADDI" 1 XZR 5; rri "ADDI" 2 XZR 7; rrr "ADD" 3 1 2;
    dfm "STUR" 3 XZR 0 ].

(** A compare-and-branch over one instruction. *)
Definition cbz_text : string :=
  lines [ "       CBZ  X1, skip";
          "       ADDI X2, XZR, #9";
          "skip:  ADDI X3, XZR, #7" ]%string.

Definition cbz_prog : Program :=
  [ cbi "CBZ" 1 "skip"; rri "ADDI" 2 XZR 9;
    with_Label (rri "ADDI" 3 XZR 7) "skip" ].

Definition cbnz_text : string :=
  lines [ "       CBNZ X1, skip";
          "       ADDI X2, XZR, #9";
          "skip:  ADDI X3, XZR, #7" ]%string.

Definition cbnz_prog : Program :=
  [ cbi "CBNZ" 1 "skip"; rri "ADDI" 2 XZR 9;
    with_Label (rri "ADDI" 3 XZR 7) "skip" ].

(** A shift by an immediate. *)
Definition lsl_text : string := lines [ "LSL X1, X2, #3" ]%string.
Definition lsl_prog : Program := [ rri "LSL" 1 2 3 ].
Definition lsr_text : string := lines [ "LSR X1, X2, #3" ]%string.
Definition lsr_prog : Program := [ rri "LSR" 1 2 3 ].

(** A float addition, on single-precision registers. *)
Definition fadds_text : string := lines [ "FADDS S1, S2, S3" ]%string.
Definition fadds_prog : Program := [ rrr "FADDS" (S0 + 1) (S0 + 2) (S0 + 3) ].

(** Branches: to a label two lines down, with link, and on a condition. *)
Definition b_prog : Program :=
  [ bto "B" "end"; rri "ADDI" 0 XZR 0; with_Label (rri "ADDI" 1 XZR 1) "end" ].

Definition bl_prog : Program :=
  [ rri "ADDI" 0 XZR 0; bto "BL" "func"; with_Label (rri "ADDI" 0 XZR 42) "func" ].

Definition beq_prog : Program :=
  [ bto "B.EQ" "equal"; rri "ADDI" 0 XZR 0;
    with_Label (rri "ADDI" 0 XZR 1) "equal" ].

(** An integer division, which the table lists and no handler runs. *)
Definition sdiv_prog : Program := [ rrr "SDIV" 1 2 3 ].

(** A machine with the given flags and nothing loaded. *)
Definition flagged (fl : Z) : CPU := with_Flags Cpu.zero fl.

(** Sixteen bytes, for scenario S5. *)
Definition sixteen : list byte :=
  map (fun k => Rand.byte_of_Z (Z.of_nat k + 160)) (seq 0 16).

(** A store and the load that reads it back. *)
Definition st_ld_prog : Program := [ dfm "STUR" 3 XZR 8; dfm "LDUR" 4 XZR 8 ].

(** A return through the link register, and a branch two lines on. *)
Definition br_prog : Program := [ rrr "BR" LR 0 0; rri "ADDI" 0 XZR 0 ].

Definition boff (op : string) (off : Z) : Instruction :=
  {| Op := op; To := Addr.with_Offset Addr.zero off; From := Addr.zero;
     Reg := 0; Imm := 0; Label := "" |}.

Definition boff_prog : Program :=
  [ boff "B" 2; rri "ADDI" 0 XZR 0; rri "ADDI" 1 XZR 1 ].

Definition bne_prog : Program :=
  [ bto "B.NE" "other"; rri "ADDI" 0 XZR 0;
    with_Label (rri "ADDI" 0 XZR 1) "other" ].

Definition bmi_prog : Program := [ bto "B.MI" "neg" ].

(** Blank text: two spaces and a newline. *)
Definition blank_text : string := ("  " +:+ nl)%string.

End Examples.

(* ===================================================================== *)
(** * Theorems *)
(* ===================================================================== *)

(** ** Memory: what is written is read back *)

Section MemoryFacts.
Import Mem.

Lemma wrap64_range z : 0 <= wrap64 z < 2 ^ 64.
Proof. unfold wrap64. apply Z.mod_pos_bound. lia. Qed.

Lemma wrap64_small z : 0 <= z < 2 ^ 64 -> wrap64 z = z.
Proof. unfold wrap64. intros. apply Z.mod_small. lia. Qed.

(** Two offsets less than [2^64] apart never wrap onto the same address. *)
Lemma wrap64_add_inj addr i j :
  0 <= i < 2 ^ 64 -> 0 <= j < 2 ^ 64 ->
  wrap64 (addr + i) = wrap64 (addr + j) -> i = j.
Proof.
  unfold wrap64. intros Hi Hj H.
  change (2 ^ 64) with 18446744073709551616 in *.
  Z.div_mod_to_equations. lia.
Qed.

(** Inside one block the addresses of a window do not wrap. *)
Lemma wrap64_window addr n j :
  0 <= j -> wrap64 (addr + n) mod BlockSize + j < BlockSize ->
  wrap64 (addr + (n + j)) = wrap64 (addr + n) + j.
Proof.
  unfold wrap64, BlockSize. intros Hj H.
  change (2 ^ 64) with 18446744073709551616 in *.
  Z.div_mod_to_equations. lia.
Qed.

Lemma window_eq addr total n :
  0 <= n < total -> total < 2 ^ 63 ->
  window addr total n =
    (wrap64 (addr + n) mod BlockSize,
     wrap64 (addr + n) mod BlockSize
       + Z.min (BlockSize - wrap64 (addr + n) mod BlockSize) (total - n)).
Proof.
  intros Hn Ht. unfold window.
  set (o := wrap64 (addr + n) mod BlockSize).
  assert (Ho : 0 <= o < BlockSize) by (apply Z.mod_pos_bound; reflexivity).
  unfold BlockSize in *.
  change (2 ^ 63) with 9223372036854775808 in *.
  rewrite (wrap64_small (o + total))
    by (change (2 ^ 64) with 18446744073709551616; lia).
  rewrite (wrap64_small (o + total - n))
    by (change (2 ^ 64) with 18446744073709551616; lia).
  f_equal. destruct (Z.ltb_spec 1024 (o + total - n)); lia.
Qed.

Lemma copy_into_length {A} (dst src : list A) lo hi :
  (lo <= hi <= length dst)%nat ->
  length (copy_into dst lo hi src).1 = length dst.
Proof.
  intros H. unfold copy_into. simpl.
  rewrite !length_app, !length_take, length_drop. lia.
Qed.

Lemma copy_into_lookup_in {A} (dst src : list A) lo hi j :
  (lo <= hi <= length dst)%nat ->
  (j < Nat.min (hi - lo) (length src))%nat ->
  (copy_into dst lo hi src).1 !! (lo + j)%nat = src !! j.
Proof.
  intros H Hj. unfold copy_into. simpl.
  rewrite lookup_app_r by (rewrite length_take; lia).
  rewrite length_take, Nat.min_l by lia.
  replace (lo + j - lo)%nat with j by lia.
  rewrite lookup_app_l by (rewrite length_take; lia).
  apply lookup_take_lt. lia.
Qed.

Lemma copy_into_lookup_out {A} (dst src : list A) lo hi i :
  (lo <= hi <= length dst)%nat ->
  (i < lo \/ lo + Nat.min (hi - lo) (length src) <= i)%nat ->
  (copy_into dst lo hi src).1 !! i = dst !! i.
Proof.
  intros H Hi. unfold copy_into. simpl.
  set (c := Nat.min (hi - lo) (length src)) in *.
  destruct Hi as [Hi|Hi].
  - rewrite lookup_app_l by (rewrite length_take; lia).
    apply lookup_take_lt. lia.
  - rewrite lookup_app_r by (rewrite length_take; lia).
    rewrite length_take, Nat.min_l by lia.
    assert (Hc : length (take c src) = c)
      by (rewrite length_take; unfold c; lia).
    rewrite lookup_app_r by lia.
    rewrite Hc, lookup_drop. f_equal. lia.
Qed.

Lemma getOrMakeBlock_spec m r a :
  wf m ->
  exists bk m1 r1,
    getOrMakeBlock m r a = (bk, m1, r1)
    /\ length (data bk) = Z.to_nat BlockSize
    /\ blocks m1 = <[a / BlockSize := bk]> (blocks m)
    /\ (forall bk0, blocks m !! (a / BlockSize) = Some bk0 ->
          bk = bk0 /\ m1 = m /\ r1 = r).
Proof.
  intros Hwf. unfold getOrMakeBlock.
  destruct (blocks m !! (a / BlockSize)) as [bk0|] eqn:E.
  - exists bk0, m, r. repeat split; eauto.
    + symmetry. by apply insert_id.
    + congruence.
  - unfold Rand.Read. eexists _, _, _. split; [reflexivity|].
    split; [|split].
    + cbn [data]. by rewrite length_map, length_seq.
    + reflexivity.
    + intros bk0 H. discriminate.
Qed.

Lemma chunk_range addr total n :
  0 <= n < total ->
  1 <= chunk addr total n <= total - n
  /\ wrap64 (addr + n) mod BlockSize + chunk addr total n <= BlockSize.
Proof.
  intros Hn. unfold chunk.
  pose proof (Z.mod_pos_bound (wrap64 (addr + n)) BlockSize eq_refl).
  unfold BlockSize in *. lia.
Qed.

(** One iteration of [Write]: the block of [addr + n] (the old one, or a
    fresh random one) has its window overwritten by the next bytes of [b]. *)
Lemma Write_loop_step fuel m r b addr n :
  let total := Z.of_nat (length b) in
  let a := wrap64 (addr + n) in
  let c := chunk addr total n in
  wf m -> 0 <= n < total -> total < 2 ^ 63 ->
  exists bk r1,
    length (data bk) = Z.to_nat BlockSize
    /\ (forall bk0, blocks m !! (a / BlockSize) = Some bk0 -> bk = bk0)
    /\ Write_loop (S fuel) m r b addr n =
       Write_loop fuel
         {| blocks :=
              <[a / BlockSize :=
                  {| off := off bk;
                     data := (copy_into (data bk) (Z.to_nat (a mod BlockSize))
                                (Z.to_nat (a mod BlockSize + c))
                                (drop (Z.to_nat n) b)).1 |}]> (blocks m) |}
         r1 b addr (n + c).
Proof.
  intros total a c Hwf Hn Ht.
  destruct (getOrMakeBlock_spec m r a Hwf) as (bk & m1 & r1 & Hg & Hlen & Hm1 & Hold).
  exists bk, r1. split; [exact Hlen|]. split; [intros bk0 H; by apply Hold|].
  destruct (chunk_range addr total n Hn) as [Hc Hoc]. fold a c in Hc, Hoc.
  pose proof (Z.mod_pos_bound a BlockSize eq_refl) as Ho.
  cbn [Write_loop]. fold total.
  destruct (Z.ltb_spec n total) as [_|]; [|lia].
  fold a. rewrite Hg, (window_eq addr total n Hn Ht). fold a c.
  assert (Hs : slice_ok (a mod BlockSize) (a mod BlockSize + c)
                 (Z.of_nat (length (data bk))) = true).
  { unfold slice_ok. rewrite Hlen. unfold BlockSize in *.
    repeat (apply andb_true_intro; split); apply Z.leb_le; lia. }
  change (Z.min (BlockSize - a mod BlockSize) (total - n)) with c.
  rewrite Hs. unfold copy_into. cbn beta iota zeta delta [fst].
  rewrite Hm1, insert_insert_eq.
  assert (Hcn : Z.of_nat (Nat.min (Z.to_nat (a mod BlockSize + c)
                                  - Z.to_nat (a mod BlockSize))
                           (length (drop (Z.to_nat n) b))) = c).
  { rewrite length_drop. unfold total in *. lia. }
  rewrite Hcn.
  rewrite (wrap64_small (n + c))
    by (change (2 ^ 63) with 9223372036854775808 in Ht;
        change (2 ^ 64) with 18446744073709551616; lia).
  reflexivity.
Qed.

Lemma byte_at_insert_same m k bk a :
  a / BlockSize = k ->
  byte_at {| blocks := <[k := bk]> (blocks m) |} a
  = data bk !! Z.to_nat (a mod BlockSize).
Proof.
  intros <-. unfold byte_at. cbn [blocks]. by rewrite lookup_insert_eq.
Qed.

Lemma byte_at_insert_other m k bk a :
  a / BlockSize <> k ->
  byte_at {| blocks := <[k := bk]> (blocks m) |} a = byte_at m a.
Proof.
  intros H. unfold byte_at. cbn [blocks]. by rewrite lookup_insert_ne.
Qed.

(** Address [a + j] of a window lies in the block of [a], [j] bytes on. *)
Lemma window_block a j :
  0 <= j -> a mod BlockSize + j < BlockSize ->
  (a + j) / BlockSize = a / BlockSize
  /\ (a + j) mod BlockSize = a mod BlockSize + j.
Proof.
  unfold BlockSize. intros. Z.div_mod_to_equations. lia.
Qed.

(** The whole loop of [Write], from [n] on: it returns [total], the bytes
    [n..total) of [b] are in memory, and no other existing byte changed. *)
Lemma Write_loop_spec b addr :
  let total := Z.of_nat (length b) in
  total < 2 ^ 63 ->
  forall fuel n m r,
    wf m -> 0 <= n <= total -> total - n <= Z.of_nat fuel ->
    exists m' r',
      Write_loop fuel m r b addr n = Ok (total, m', r')
      /\ wf m'
      /\ (forall i, n <= i < total ->
            byte_at m' (wrap64 (addr + i)) = b !! Z.to_nat i)
      /\ (forall x v,
            (forall i, n <= i < total -> x <> wrap64 (addr + i)) ->
            byte_at m x = Some v -> byte_at m' x = Some v).
Proof.
  intros total Ht fuel. induction fuel as [|fuel IH]; intros n m r Hwf Hn Hf.
  - assert (n = total) as -> by lia.
    exists m, r. cbn [Write_loop]. fold total. rewrite Z.ltb_irrefl.
    repeat split; auto. intros; lia.
  - destruct (Z.eq_dec n total) as [->|Hne].
    { exists m, r. cbn [Write_loop]. fold total. rewrite Z.ltb_irrefl.
      repeat split; auto. intros; lia. }
    assert (Hn' : 0 <= n < total) by lia.
    destruct (Write_loop_step fuel m r b addr n Hwf Hn' Ht)
      as (bk & r1 & Hlen & Hold & Heq).
    fold total in Heq. rewrite Heq. clear Heq.
    set (a := wrap64 (addr + n)) in *.
    set (c := chunk addr total n) in *.
    destruct (chunk_range addr total n Hn') as [Hc Hoc]. fold a c in Hc, Hoc.
    pose proof (Z.mod_pos_bound a BlockSize eq_refl) as Ho.
    set (d := (copy_into (data bk) (Z.to_nat (a mod BlockSize))
                 (Z.to_nat (a mod BlockSize + c)) (drop (Z.to_nat n) b)).1).
    set (m2 := {| blocks := <[a / BlockSize := {| off := off bk; data := d |}]>
                              (blocks m) |}).
    assert (Hsl : (Z.to_nat (a mod BlockSize) <= Z.to_nat (a mod BlockSize + c)
                   <= length (data bk))%nat)
      by (rewrite Hlen; unfold BlockSize in *; lia).
    assert (Hcn : Nat.min (Z.to_nat (a mod BlockSize + c)
                           - Z.to_nat (a mod BlockSize))
                    (length (drop (Z.to_nat n) b)) = Z.to_nat c)
      by (rewrite length_drop; unfold total in *; lia).
    assert (Hwf2 : wf m2).
    { intros k bk'. unfold m2. cbn [blocks].
      destruct (decide (a / BlockSize = k)) as [<-|Hk].
      - rewrite lookup_insert_eq. intros [= <-]. cbn [data]. unfold d.
        by rewrite copy_into_length.
      - rewrite lookup_insert_ne by done. apply Hwf. }
    destruct (IH (n + c) m2 r1 Hwf2) as (m' & r' & Hrun & Hwf' & Hnew & Hkeep);
      [lia|lia|].
    exists m', r'. split; [exact Hrun|]. split; [exact Hwf'|]. split.
    + intros i Hi. destruct (Z.lt_ge_cases i (n + c)) as [Hlt|Hge].
      * assert (is_Some (b !! Z.to_nat i)) as [v Hv]
          by (apply lookup_lt_is_Some; unfold total in *; lia).
        rewrite Hv. apply Hkeep.
        { intros i' Hi' Heq. apply wrap64_add_inj in Heq; [lia| |];
            change (2 ^ 63) with 9223372036854775808 in Ht;
            change (2 ^ 64) with 18446744073709551616; lia. }
        replace i with (n + (i - n)) by lia.
        rewrite wrap64_window by (fold a; lia). fold a.
        destruct (window_block a (i - n)) as [Hk Hm]; [lia|lia|].
        unfold m2. rewrite byte_at_insert_same by exact Hk.
        cbn [data]. rewrite Hm. unfold d.
        replace (Z.to_nat (a mod BlockSize + (i - n)))
          with (Z.to_nat (a mod BlockSize) + Z.to_nat (i - n))%nat by lia.
        rewrite copy_into_lookup_in by (try exact Hsl; rewrite Hcn; lia).
        rewrite lookup_drop, <- Hv. f_equal. lia.
      * apply Hnew. lia.
    + intros x v Hx Hv. apply Hkeep; [intros i Hi; apply Hx; lia|].
      destruct (decide (x / BlockSize = a / BlockSize)) as [Hk|Hk].
      * unfold m2. rewrite byte_at_insert_same by exact Hk. cbn [data].
        unfold byte_at in Hv. rewrite Hk in Hv.
        destruct (blocks m !! (a / BlockSize)) as [bk0|] eqn:E; [|discriminate].
        assert (bk0 = bk) as -> by (symmetry; by apply Hold).
        rewrite <- Hv. unfold d.
        pose proof (Z.mod_pos_bound x BlockSize eq_refl) as Hxo.
        apply copy_into_lookup_out; [exact Hsl|]. rewrite Hcn.
        destruct (Z.lt_ge_cases (x mod BlockSize) (a mod BlockSize)) as [?|Hlo];
          [lia|].
        destruct (Z.lt_ge_cases (x mod BlockSize) (a mod BlockSize + c))
          as [Hhi|?]; [|lia].
        exfalso. apply (Hx (n + (x mod BlockSize - a mod BlockSize))); [lia|].
        rewrite wrap64_window by (fold a; lia). fold a.
        clearbody a. clear -Hk. unfold BlockSize in *.
        Z.div_mod_to_equations. lia.
      * unfold m2. by rewrite byte_at_insert_other.
Qed.

(** The whole loop of [Read] over a memory that holds [B] at [addr]: the
    buffer, already equal to [B] below [n], ends up equal to [B]; neither the
    memory nor the random source is touched. *)
Lemma Read_loop_spec B addr m r :
  let total := Z.of_nat (length B) in
  total < 2 ^ 63 -> wf m ->
  (forall i, 0 <= i < total ->
     byte_at m (wrap64 (addr + i)) = B !! Z.to_nat i) ->
  forall fuel n buf,
    length buf = length B -> 0 <= n <= total -> total - n <= Z.of_nat fuel ->
    take (Z.to_nat n) buf = take (Z.to_nat n) B ->
    Read_loop fuel m r buf addr n = Ok (total, B, m, r).
Proof.
  intros total Ht Hwf Hmem fuel.
  induction fuel as [|fuel IH]; intros n buf Hlen Hn Hf Hpre.
  - assert (n = total) as -> by lia.
    cbn [Read_loop]. rewrite Hlen. fold total. rewrite Z.ltb_irrefl.
    rewrite !take_ge in Hpre by (unfold total; lia). by subst.
  - destruct (Z.eq_dec n total) as [->|Hne].
    { cbn [Read_loop]. rewrite Hlen. fold total. rewrite Z.ltb_irrefl.
      rewrite !take_ge in Hpre by (unfold total; lia). by subst. }
    assert (Hn' : 0 <= n < total) by lia.
    cbn [Read_loop].
    replace (Z.of_nat (length buf)) with total by (unfold total; congruence).
    destruct (Z.ltb_spec n total) as [_|]; [|lia].
    set (a := wrap64 (addr + n)).
    set (c := chunk addr total n).
    destruct (chunk_range addr total n Hn') as [Hc Hoc]. fold a c in Hc, Hoc.
    pose proof (Z.mod_pos_bound a BlockSize eq_refl) as Ho.
    assert (is_Some (B !! Z.to_nat n)) as [v Hv]
      by (apply lookup_lt_is_Some; unfold total in *; lia).
    pose proof (Hmem n Hn') as Ha. fold a in Ha. rewrite Hv in Ha.
    unfold getOrMakeBlock. unfold byte_at in Ha.
    destruct (blocks m !! (a / BlockSize)) as [bk|] eqn:E; [|discriminate].
    pose proof (Hwf _ _ E) as Hbk.
    rewrite (window_eq addr total n Hn' Ht). fold a.
    change (Z.min (BlockSize - a mod BlockSize) (total - n)) with c.
    assert (Hs : slice_ok (a mod BlockSize) (a mod BlockSize + c)
                   (Z.of_nat (length (data bk))) = true).
    { unfold slice_ok. rewrite Hbk. unfold BlockSize in *.
      repeat (apply andb_true_intro; split); apply Z.leb_le; lia. }
    rewrite Hs.
    set (src := drop (Z.to_nat (a mod BlockSize))
                  (take (Z.to_nat (a mod BlockSize + c)) (data bk))).
    assert (Hsrc : length src = Z.to_nat c).
    { unfold src. rewrite length_drop, length_take, Hbk.
      unfold BlockSize in *. lia. }
    assert (Hsl : (Z.to_nat n <= length buf <= length buf)%nat)
      by (rewrite Hlen; unfold total in *; lia).
    assert (Hcn : Nat.min (length buf - Z.to_nat n) (length src) = Z.to_nat c)
      by (rewrite Hsrc, Hlen; unfold total in *; lia).
    destruct (copy_into buf (Z.to_nat n) (length buf) src) as [buf' c0] eqn:Ec.
    assert (Hc0 : c0 = Z.to_nat c)
      by (apply (f_equal snd) in Ec; cbn [snd copy_into] in Ec; lia).
    assert (Hbuf' : buf' = (copy_into buf (Z.to_nat n) (length buf) src).1)
      by (by rewrite Ec).
    subst c0. rewrite Z2Nat.id by lia.
    rewrite (wrap64_small (n + c))
      by (change (2 ^ 63) with 9223372036854775808 in Ht;
          change (2 ^ 64) with 18446744073709551616; lia).
    apply IH; [ |lia|lia| ].
    + rewrite Hbuf', copy_into_length by exact Hsl. exact Hlen.
    + apply list_eq. intros i.
      destruct (Nat.lt_ge_cases i (Z.to_nat (n + c))) as [Hi|Hi];
        [|by rewrite !lookup_take_ge].
      rewrite !lookup_take_lt by exact Hi.
      destruct (Nat.lt_ge_cases i (Z.to_nat n)) as [Hlo|Hlo].
      * rewrite Hbuf', copy_into_lookup_out by (try exact Hsl; lia).
        rewrite <- (lookup_take_lt buf (Z.to_nat n)) by exact Hlo.
        rewrite Hpre. by apply lookup_take_lt.
      * replace i with (Z.to_nat n + (i - Z.to_nat n))%nat at 1 by lia.
        rewrite Hbuf', copy_into_lookup_in by (try exact Hsl; lia).
        unfold src. rewrite lookup_drop, lookup_take_lt by lia.
        transitivity (B !! Z.to_nat (Z.of_nat i)); [|by rewrite Nat2Z.id].
        rewrite <- (Hmem (Z.of_nat i)) by (unfold total in *; lia).
        replace (Z.of_nat i) with (n + (Z.of_nat i - n)) by lia.
        rewrite wrap64_window by (fold a; lia). fold a.
        destruct (window_block a (Z.of_nat i - n)) as [Hk Hm]; [lia|lia|].
        unfold byte_at. rewrite Hk, E, Hm. f_equal. lia.
Qed.

Lemma wf_empty : wf Mem.empty.
Proof. intros k bk H. unfold Mem.empty in H. cbn in H. by rewrite lookup_empty in H. Qed.

(** C4.  Writing [B] at any address [A] and then reading [length B] bytes at
    [A] gives back [B], whatever the memory held before, whatever the buffer
    held, and however many blocks the range crosses (the address arithmetic
    may even wrap past [2^64 - 1]); both calls return [n = length B] and a nil
    error.  A Go slice has fewer than [2^63] elements. *)
Theorem Write_then_Read (m : Memory) (r : Rand.rng) (B buf : list byte) (A : Z) :
  wf m -> Z.of_nat (length B) < 2 ^ 63 -> length buf = length B ->
  exists m' r',
    Write m r B A = Ok (Z.of_nat (length B), None, m', r')
    /\ Read m' r' buf A = Ok (Z.of_nat (length B), None, B, m', r').
Proof.
  intros Hwf Ht Hlen.
  destruct (Write_loop_spec B A Ht (length B) 0 m r Hwf)
    as (m' & r' & Hw & Hwf' & Hnew & _); [lia|lia|].
  exists m', r'. split.
  - unfold Write. rewrite Hw. reflexivity.
  - unfold Read. rewrite Hlen.
    rewrite (Read_loop_spec B A m' r' Ht Hwf' Hnew (length B) 0 buf);
      [reflexivity|exact Hlen|lia|lia|reflexivity].
Qed.

End MemoryFacts.

(** ** The processor: helper lemmas *)

Section CpuFacts.
Import Asm Cpu.

Lemma reg_get_gp c r :
  wf c -> gp r -> exists v, reg_get c r = Ok v /\ 0 <= v < 2 ^ 64.
Proof.
  intros Hwf [Hr0 Hr1]. unfold reg_get.
  destruct (Registers c !! Z.to_nat r) as [v|] eqn:E.
  - exists v. split; [reflexivity|].
    exact (proj1 (Forall_lookup _ _) (wf_vals c Hwf) _ _ E).
  - apply lookup_ge_None in E. rewrite (wf_regs c Hwf) in E. lia.
Qed.

Lemma reg_get_out c r :
  wf c -> 32 <= r -> reg_get c r = panic "index out of range".
Proof.
  intros Hwf Hr. unfold reg_get.
  rewrite (proj2 (lookup_ge_None _ _)); [reflexivity|].
  rewrite (wf_regs c Hwf). lia.
Qed.

Lemma reg_set_gp c r v :
  wf c -> gp r ->
  reg_set c r v = Ok (with_Registers c (<[Z.to_nat r := v]> (Registers c))).
Proof.
  intros Hwf [Hr0 Hr1]. unfold reg_set. rewrite (wf_regs c Hwf).
  destruct (Nat.ltb_spec (Z.to_nat r) 32); [reflexivity|lia].
Qed.

(** An instruction [arith] does not act on leaves the state alone, provided
    the registers [valuesFor] reads exist. *)
Lemma arith_skip c i :
  wf c -> gp (Addr.Reg (From i)) -> gp (Reg i) ->
  arith_op (Op i) = false -> arith c i = Ok (false, c).
Proof.
  intros Hwf Hf Hr Hop. unfold arith_op in Hop.
  repeat (apply orb_false_elim in Hop; destruct Hop as [Hop ?]).
  destruct (reg_get_gp c _ Hwf Hf) as (a & Ha & _).
  destruct (reg_get_gp c _ Hwf Hr) as (b & Hb & _).
  unfold arith, valuesFor.
  destruct (HasSuffix (Op i) "I"); rewrite Ha; cbn; rewrite ?Hb; cbn;
    repeat match goal with H : _ = false |- _ => rewrite H; clear H end;
    reflexivity.
Qed.

(** With a float register where [valuesFor] reads, [arith] panics before it
    looks at the mnemonic. *)
Lemma arith_out c i :
  wf c -> HasSuffix (Op i) "I" = false ->
  0 <= Addr.Reg (From i) -> 0 <= Reg i ->
  ~ (gp (Addr.Reg (From i)) /\ gp (Reg i)) ->
  arith c i = panic "index out of range".
Proof.
  intros Hwf Hs Hf0 Hr0 Hout. unfold arith, valuesFor. rewrite Hs.
  destruct (Z.lt_ge_cases (Addr.Reg (From i)) 32) as [Hf|Hf].
  - destruct (reg_get_gp c (Addr.Reg (From i)) Hwf) as (a & Ha & _);
      [split; lia|].
    rewrite Ha. cbn. rewrite reg_get_out; [reflexivity|exact Hwf|].
    unfold gp in Hout. lia.
  - rewrite (reg_get_out c _ Hwf Hf). reflexivity.
Qed.

Lemma branch_skip c i : branch_op (Op i) = false -> branch c i = Ok (false, c).
Proof.
  intros Hop. unfold branch_op in Hop.
  repeat (apply orb_false_elim in Hop; destruct Hop as [Hop ?]).
  unfold branch.
  repeat match goal with H : _ = false |- _ => rewrite H; clear H end.
  reflexivity.
Qed.

Lemma memory_skip c r i :
  memory_op (Op i) = false -> memory c r i = Ok (false, c, r).
Proof.
  intros Hop. unfold memory_op in Hop.
  apply orb_false_elim in Hop. destruct Hop as [H1 H2].
  unfold memory. rewrite H1, H2. reflexivity.
Qed.

(** *** What [Step] never changes *)

Lemma bind_Ok {A B} (x : result A) (k : A -> result B) b :
  x ≫= k = Ok b -> exists a, x = Ok a /\ k a = Ok b.
Proof. destruct x as [a|f]; cbn; [eauto|discriminate]. Qed.

Lemma reg_set_prog c r v c' : reg_set c r v = Ok c' -> prog c' = prog c.
Proof. unfold reg_set. intros H. destruct (_ <? _)%nat; [|discriminate]. by injection H as <-. Qed.

Lemma setFlags_prog c i k c' : setFlags c i k = Ok c' -> prog c' = prog c.
Proof.
  unfold setFlags. intros H. destruct (negb _); [by injection H as <-|].
  apply bind_Ok in H. destruct H as (v & _ & H).
  repeat (destruct (_ : bool) in H); by injection H as <-.
Qed.

Lemma arith_prog c i b c' : arith c i = Ok (b, c') -> prog c' = prog c.
Proof.
  unfold arith. intros H.
  apply bind_Ok in H. destruct H as ([[dst x] y] & _ & H).
  unfold Add64, Sub64 in H.
  repeat match type of H with
  | (if ?b then _ else _) = _ => destruct b
  end;
  repeat match goal with
  | H : _ ≫= _ = Ok _ |- _ =>
      let a := fresh "a" in let Ha := fresh "Ha" in
      apply bind_Ok in H; destruct H as (a & Ha & H)
  end;
  repeat match goal with
    | H : setFlags _ _ _ = Ok _ |- _ => apply setFlags_prog in H
    | H : reg_set _ _ _ = Ok _ |- _ => apply reg_set_prog in H
    end; injection H as <- <-; congruence.
Qed.

Ltac step_bind H :=
  repeat match type of H with
  | (if ?b then _ else _) = _ => destruct b
  | (match ?x with _ => _ end) = _ => destruct x
  | _ ≫= _ = Ok _ =>
      let a := fresh "a" in let Ha := fresh "Ha" in
      apply bind_Ok in H; destruct H as (a & Ha & H)
  | panic _ = Ok _ => discriminate H
  end.

Ltac use_prog :=
  repeat match goal with
    | H : setFlags _ _ _ = Ok _ |- _ => apply setFlags_prog in H
    | H : reg_set _ _ _ = Ok _ |- _ => apply reg_set_prog in H
    end.

Lemma branch_prog c i b c' : branch c i = Ok (b, c') -> prog c' = prog c.
Proof.
  unfold branch. intros H. step_bind H; use_prog;
    injection H as <- <-; cbn; congruence.
Qed.

Lemma memory_prog c r i b c' r' :
  memory c r i = Ok (b, c', r') -> prog c' = prog c.
Proof.
  unfold memory. intros H. step_bind H; use_prog;
    injection H as <- <- <-; first [reflexivity | assumption].
Qed.

Lemma Step_prog c r b c' r' : Step c r = Ok (b, c', r') -> prog c' = prog c.
Proof.
  unfold Step. intros H.
  destruct (length (prog c) =? 0)%nat; [by injection H as <- <- <-|].
  destruct (prog c !! Z.to_nat (PC c)) as [i|]; [|discriminate].
  apply bind_Ok in H. destruct H as ([ok c1] & Ha & H).
  apply arith_prog in Ha.
  apply bind_Ok in H. destruct H as ([c2 r2] & Hb & H).
  injection H as <- <- <-.
  destruct ok.
  - injection Hb as <- <-. exact Ha.
  - apply bind_Ok in Hb. destruct Hb as ([ok2 c3] & Hb & H).
    apply branch_prog in Hb. destruct ok2.
    + injection H as <- <-. congruence.
    + apply bind_Ok in H. destruct H as ([[ok3 c4] r4] & Hc & H).
      apply memory_prog in Hc.
      destruct ok3; injection H as <- <-; cbn; congruence.
Qed.

Lemma lookup_PC c i :
  wf c -> prog c !! Z.to_nat (PC c) = Some i ->
  (length (prog c) =? 0)%nat = false
  /\ (PC c <? Z.of_nat (length (prog c))) = true
  /\ PC c + 1 < 2 ^ 64.
Proof.
  intros Hwf Hi. apply lookup_lt_Some in Hi.
  pose proof (wf_PC c Hwf). pose proof (wf_prog c Hwf).
  change (2 ^ 63) with 9223372036854775808 in *.
  change (2 ^ 64) with 18446744073709551616 in *.
  split; [apply Nat.eqb_neq; lia|]. split; [apply Z.ltb_lt|]; lia.
Qed.

Lemma Step_skip c r i :
  wf c -> prog c !! Z.to_nat (PC c) = Some i ->
  gp (Addr.Reg (From i)) -> gp (Reg i) ->
  arith_op (Op i) = false -> branch_op (Op i) = false ->
  memory_op (Op i) = false ->
  Step c r = Ok (true, c, r).
Proof.
  intros Hwf Hi Hf Hr Ha Hb Hm.
  destruct (lookup_PC c i Hwf Hi) as (Hne & Hlt & _).
  unfold Step. rewrite Hne, Hi, (arith_skip c i Hwf Hf Hr Ha). cbn.
  rewrite (branch_skip c i Hb). cbn.
  rewrite (memory_skip c r i Hm). cbn. by rewrite Hlt.
Qed.

Lemma Step_arith_panic c r i :
  wf c -> prog c !! Z.to_nat (PC c) = Some i ->
  HasSuffix (Op i) "I" = false ->
  0 <= Addr.Reg (From i) -> 0 <= Reg i ->
  ~ (gp (Addr.Reg (From i)) /\ gp (Reg i)) ->
  Step c r = panic "index out of range".
Proof.
  intros Hwf Hi Hs Hf Hr Hout.
  destruct (lookup_PC c i Hwf Hi) as (Hne & _ & _).
  unfold Step. rewrite Hne, Hi, (arith_out c i Hwf Hs Hf Hr Hout).
  reflexivity.
Qed.

Lemma unhandled_opcodes_skip op :
  In op unhandled_opcodes ->
  arith_op op = false /\ branch_op op = false /\ memory_op op = false
  /\ HasSuffix op "I" = false.
Proof.
  intros H. unfold unhandled_opcodes in H. cbn [In] in H.
  repeat (destruct H as [<-|H]; [by vm_compute|]). destruct H.
Qed.

(** C10, as amended.  For every instruction whose mnemonic is one of the
    table's entries that no handler acts on, at a [PC] inside the program:
    when the operand fields [From.Reg] and [Reg] name general-purpose
    registers, [Step] leaves the [PC], the registers, the flags and the memory
    as they were and returns true; when one of them names a float register
    (index 32 or more; the fields are unsigned), [Step] panics on the register
    array before any handler looks at the mnemonic. *)
Theorem Step_unhandled (c : CPU) (r : Rand.rng) (i : Instruction) :
  wf c -> prog c !! Z.to_nat (PC c) = Some i ->
  In (Op i) unhandled_opcodes ->
  0 <= Addr.Reg (From i) -> 0 <= Reg i ->
  (gp (Addr.Reg (From i)) /\ gp (Reg i) -> Step c r = Ok (true, c, r))
  /\ (~ (gp (Addr.Reg (From i)) /\ gp (Reg i)) ->
      Step c r = panic "index out of range").
Proof.
  intros Hwf Hi Hop Hf Hr.
  destruct (unhandled_opcodes_skip _ Hop) as (Ha & Hb & Hm & Hs).
  split.
  - intros [Hgf Hgr]. by apply (Step_skip c r i).
  - intros Hout. by apply (Step_arith_panic c r i).
Qed.

Lemma Step_empty c r : prog c = [] -> Step c r = Ok (false, c, r).
Proof. intros H. unfold Step. by rewrite H. Qed.

Lemma Step_answer c r b c' r' :
  prog c <> [] -> Step c r = Ok (b, c', r') ->
  b = (PC c' <? Z.of_nat (length (prog c'))).
Proof.
  intros Hne H. unfold Step in H.
  destruct (length (prog c) =? 0)%nat eqn:E.
  { apply Nat.eqb_eq in E. destruct (prog c); [done|discriminate]. }
  destruct (prog c !! Z.to_nat (PC c)) as [i|]; [|discriminate].
  apply bind_Ok in H. destruct H as ([ok c1] & _ & H).
  apply bind_Ok in H. destruct H as ([c2 r2] & _ & H).
  by injection H as <- <- <-.
Qed.

Lemma Step_past_end c r :
  prog c <> [] -> Z.of_nat (length (prog c)) <= PC c ->
  Step c r = panic "index out of range".
Proof.
  intros Hne Hpc. unfold Step.
  destruct (length (prog c) =? 0)%nat eqn:E.
  { apply Nat.eqb_eq in E. destruct (prog c); [done|discriminate]. }
  rewrite (proj2 (lookup_ge_None _ _)); [reflexivity|lia].
Qed.

(** C9.  With a non-empty program and [PC] at or past its end, [Step]
    panics on [prog[PC]]; in particular a [Step] that follows one that
    returned false panics.  ([Step_empty]: only with the empty program does it
    return false whatever the [PC].) *)
Theorem Step_needs_PC_in_range (c : CPU) (r : Rand.rng) :
  prog c <> [] ->
  (Z.of_nat (length (prog c)) <= PC c -> Step c r = panic "index out of range")
  /\ (forall c' r', Step c r = Ok (false, c', r') ->
        Step c' r' = panic "index out of range").
Proof.
  intros Hne. split; [by apply Step_past_end|].
  intros c' r' H.
  pose proof (Step_prog _ _ _ _ _ H) as Hp.
  pose proof (Step_answer _ _ _ _ _ Hne H) as Hb.
  symmetry in Hb. apply Z.ltb_ge in Hb.
  apply Step_past_end; [congruence|exact Hb].
Qed.


Lemma addr_label c to :
  Addr.Label to <> ""%string ->
  addr c to = default 0 (labels c !! Addr.Label to).
Proof.
  intros H. unfold addr. apply String.eqb_neq in H. by rewrite H.
Qed.

Lemma substring_all s : String.substring 0 (String.length s) s = s.
Proof. induction s as [|a s IH]; cbn; [reflexivity|by rewrite IH]. Qed.

(** C6.  In every state the Go types allow, with [PC] inside the program and
    the operand register fields within the register array: a [Step] on
    [B label] leaves [PC] at the label's entry in the label map; a [Step] on
    [BL label] leaves the old [PC] in [LR] and [PC] at the label's entry; a
    [Step] on a [B.cond] whose condition evaluates to false leaves [PC] one
    further. *)
Theorem branch_semantics (c : CPU) (r : Rand.rng) (i : Instruction) :
  wf c -> prog c !! Z.to_nat (PC c) = Some i ->
  gp (Addr.Reg (From i)) -> gp (Reg i) ->
  (Op i = "B"%string -> Addr.Label (To i) <> ""%string ->
     exists b c', Step c r = Ok (b, c', r)
       /\ PC c' = default 0 (labels c !! Addr.Label (To i)))
  /\ (Op i = "BL"%string -> Addr.Label (To i) <> ""%string ->
     exists b c', Step c r = Ok (b, c', r)
       /\ Registers c' !! Z.to_nat LR = Some (PC c)
       /\ PC c' = default 0 (labels c !! Addr.Label (To i)))
  /\ (forall cond, Op i = ("B." +:+ cond)%string ->
     shouldBranch c cond = (false, None) ->
     exists b c', Step c r = Ok (b, c', r) /\ PC c' = PC c + 1).
Proof.
  intros Hwf Hi Hf Hr.
  destruct (lookup_PC c i Hwf Hi) as (Hne & Hlt & Hpc).
  split; [|split].
  - intros Hop Hl.
    assert (Ha : arith_op (Op i) = false) by (by rewrite Hop).
    assert (Hm : memory_op (Op i) = false) by (by rewrite Hop).
    eexists _, _. split.
    + unfold Step. rewrite Hne, Hi, (arith_skip c i Hwf Hf Hr Ha). cbn.
      unfold branch. rewrite Hop. cbn.
      rewrite memory_skip by exact Hm. cbn. reflexivity.
    + cbn. by apply addr_label.
  - intros Hop Hl.
    assert (Ha : arith_op (Op i) = false) by (by rewrite Hop).
    eexists _, _. split; [|split].
    + unfold Step. rewrite Hne, Hi, (arith_skip c i Hwf Hf Hr Ha). cbn.
      unfold branch. rewrite Hop. cbn.
      rewrite (reg_set_gp c LR (PC c) Hwf) by (unfold gp, LR, X30; lia).
      cbn. reflexivity.
    + cbn. apply list_lookup_insert_eq. rewrite (wf_regs c Hwf).
      unfold LR, X30. lia.
    + cbn. rewrite addr_label by exact Hl. reflexivity.
  - intros cond Hop Hc.
    change ("B." +:+ cond)%string with (String "B" (String "." cond)) in Hop.
    assert (Ha : arith_op (Op i) = false) by (by rewrite Hop).
    eexists _, _. split.
    + unfold Step. rewrite Hne, Hi, (arith_skip c i Hwf Hf Hr Ha). cbn.
      unfold branch. rewrite Hop. cbn.
      rewrite Nat.sub_0_r, substring_all, Hc. cbn.
      replace (String.prefix "" cond) with true by (by destruct cond).
      cbn. reflexivity.
    + cbn. apply wrap64_small. pose proof (wf_PC c Hwf). lia.
Qed.

(** A masked flag bit other than N is 0 or at least 2, never the literal 1:
    [EQ], [HI] and [HS] never hold and [LS] always does. *)
Lemma masked_flag_ne_1 x f :
  f = flagZ \/ f = flagV \/ f = flagC -> (Z.land x f =? 1) = false.
Proof.
  intros Hf. apply Z.eqb_neq. intros H.
  apply (f_equal (fun z => Z.testbit z 0)) in H.
  rewrite Z.land_spec in H.
  destruct Hf as [Hf|[Hf|Hf]]; subst f; cbn in H;
    rewrite andb_false_r in H; discriminate.
Qed.

Lemma shouldBranch_literal_1 c :
  shouldBranch c "EQ" = (false, None)
  /\ shouldBranch c "HI" = (false, None)
  /\ shouldBranch c "HS" = (false, None)
  /\ shouldBranch c "LS" = (true, None).
Proof.
  unfold shouldBranch. cbn.
  rewrite (masked_flag_ne_1 (Flags c) flagZ) by auto.
  rewrite (masked_flag_ne_1 (Flags c) flagC) by auto.
  rewrite andb_false_r. auto.
Qed.

End CpuFacts.

(** ** The processor: the states [Load] produces *)

Section CpuStates.
Import Asm Cpu.

Lemma wfb_wf c : wfb c = true -> wf c.
Proof.
  unfold wfb. intros H.
  apply andb_prop in H. destruct H as [H Hprog].
  apply andb_prop in H. destruct H as [H Hhi].
  apply andb_prop in H. destruct H as [H Hlo].
  apply andb_prop in H. destruct H as [Hlen Hall].
  constructor.
  - by apply Nat.eqb_eq.
  - apply Forall_forall. intros v Hv.
    apply list_elem_of_In in Hv.
    apply (proj1 (forallb_forall _ _) Hall) in Hv.
    apply andb_prop in Hv. destruct Hv as [Hv1 Hv2].
    apply Z.leb_le in Hv1. apply Z.ltb_lt in Hv2. lia.
  - split; [by apply Z.leb_le|by apply Z.ltb_lt].
  - by apply Z.ltb_lt.
Qed.

Lemma draw_spec n : forall r,
  length (draw n r).1 = n /\ Forall (fun v => 0 <= v < 2 ^ 64) (draw n r).1.
Proof.
  induction n as [|n IH]; intros r; cbn [draw].
  - split; [reflexivity|constructor].
  - unfold Rand.Uint64. destruct (IH (Rand.advance r 1)) as [Hl Hf].
    destruct (draw n (Rand.advance r 1)) as [vs r2]. cbn in *.
    split; [by rewrite Hl|]. constructor; [apply wrap64_range|exact Hf].
Qed.

(** [Load] puts any machine with 32 registers into a well-formed state. *)
Lemma Load_wf c r p :
  length (Registers c) = 32%nat -> 0 <= PC c < 2 ^ 64 ->
  Z.of_nat (length p) < 2 ^ 63 -> wf (Load c r p).1.1.
Proof.
  intros Hl Hpc Hp. unfold Load. rewrite Hl.
  destruct (draw_spec 32 r) as [Hdl Hdf].
  destruct (draw 32 r) as [regs r']. cbn in *.
  constructor; cbn; assumption.
Qed.

(** The label map [Load] builds: a label that no instruction carries keeps
    its old entry; otherwise the last instruction carrying it wins. *)
Lemma index_labels_absent p : forall i m l,
  (forall k ins, p !! k = Some ins -> Label ins <> l) ->
  index_labels i p m !! l = m !! l.
Proof.
  induction p as [|a p IH]; intros i m l H; cbn [index_labels]; [reflexivity|].
  rewrite IH by (intros k ins Hk; apply (H (S k) ins Hk)).
  destruct (String.eqb_spec (Label a) ""); [reflexivity|].
  apply lookup_insert_ne. exact (H 0%nat a eq_refl).
Qed.

Lemma index_labels_last p : forall i m l k ins,
  l <> ""%string -> 0 <= i -> i + Z.of_nat (length p) <= 2 ^ 64 ->
  p !! k = Some ins -> Label ins = l ->
  (forall k' ins', (k < k')%nat -> p !! k' = Some ins' -> Label ins' <> l) ->
  index_labels i p m !! l = Some (i + Z.of_nat k).
Proof.
  induction p as [|a p IH]; intros i m l k ins Hl Hi Hlen Hk Hlab Hlast;
    [discriminate|].
  cbn [index_labels]. cbn [length] in Hlen. destruct k as [|k].
  - injection Hk as ->. rewrite Hlab.
    apply String.eqb_neq in Hl. rewrite Hl.
    rewrite index_labels_absent
      by (intros k' ins' Hk'; apply (Hlast (S k') ins'); [lia|exact Hk']).
    rewrite lookup_insert_eq, wrap64_small by lia. f_equal. lia.
  - rewrite (IH (i + 1) _ l k ins); try assumption; try lia.
    + f_equal. lia.
    + intros k' ins' Hlt Hk'. apply (Hlast (S k') ins'); [lia|exact Hk'].
Qed.

(** After [Load], a label resolves to the index of the last line carrying it. *)
Lemma Load_labels c r p l k ins :
  l <> ""%string -> Z.of_nat (length p) < 2 ^ 63 ->
  p !! k = Some ins -> Label ins = l ->
  (forall k' ins', (k < k')%nat -> p !! k' = Some ins' -> Label ins' <> l) ->
  labels (Load c r p).1.1 !! l = Some (Z.of_nat k).
Proof.
  intros Hl Hp Hk Hlab Hlast. unfold Load.
  destruct (draw (length (Registers c)) r) as [regs r']. cbn [fst labels].
  rewrite (index_labels_last p 0 ∅ l k ins); try assumption; try lia.
  reflexivity.
Qed.

End CpuStates.


(** ** The claims at concrete inputs *)

Section Claims.
Import Asm Lex Parse Cpu Examples.

(** C1, the code at two failing inputs.  [ADDS X3, X1, X2] with [X1 = 2^63],
    [X2 = 0] and clear flags writes [2^63], whose bit 63 is set, and leaves
    N clear; with all registers zero it writes 0 without a carry and sets N
    and C along with Z. *)
Theorem ADDS_flags_at_failing_input :
  (exists c' r',
     Step (loaded (only 1 (2 ^ 63)) [rrr "ADDS" 3 1 2])
          (loaded_rng (only 1 (2 ^ 63)) [rrr "ADDS" 3 1 2]) = Ok (false, c', r')
     /\ Registers c' !! 3%nat = Some (2 ^ 63)
     /\ Z.testbit (2 ^ 63) 63 = true
     /\ Z.land (Flags c') flagN = 0)
  /\ (exists c' r',
     Step (loaded (only 1 0) [rrr "ADDS" 3 1 2])
          (loaded_rng (only 1 0) [rrr "ADDS" 3 1 2]) = Ok (false, c', r')
     /\ Registers c' !! 3%nat = Some 0
     /\ Z.land (Flags c') flagN = flagN
     /\ Z.land (Flags c') flagC = flagC).
Proof.
  split; eexists _, _; (split; [vm_compute; reflexivity|]); repeat split.
Qed.

(** C2, the code at failing inputs.  With only Z set, [EQ] is false; with N
    and V both set (so N = V, Z clear), [LT] and [LE] are true and [GT] and
    [GE] false; with only C set (Z clear), [LS] is true and [HI] and [HS]
    false: each the opposite of the table's predicate. *)
Theorem shouldBranch_at_failing_inputs :
  shouldBranch (flagged flagZ) "EQ" = (false, None)
  /\ shouldBranch (flagged (Z.lor flagN flagV)) "LT" = (true, None)
  /\ shouldBranch (flagged (Z.lor flagN flagV)) "LE" = (true, None)
  /\ shouldBranch (flagged (Z.lor flagN flagV)) "GT" = (false, None)
  /\ shouldBranch (flagged (Z.lor flagN flagV)) "GE" = (false, None)
  /\ shouldBranch (flagged flagC) "LS" = (true, None)
  /\ shouldBranch (flagged flagC) "HI" = (false, None)
  /\ shouldBranch (flagged flagC) "HS" = (false, None).
Proof. repeat split. Qed.

(** C3, the code at failing inputs.  The text [CBZ X1, skip] parses with
    the register in [From.Reg] and the label in [To.Label]; [branch] tests
    [To.Reg] (X0) and jumps to the target of [From] ([PC + 0]).  With
    [X1 = 0] and [X0 = 1] the branch to [skip] (index 2) is not taken; with
    [X1 = 1] and [X0 = 0], [PC] stays at 0 instead of advancing; [CBNZ] with
    [X1 = 1], [X0 = 0] is not taken either. *)
Theorem CBZ_at_failing_input :
  parse_program cbz_text = Ok (cbz_prog, None)
  /\ Registers (loaded (only 0 1) cbz_prog) !! 1%nat = Some 0
  /\ labels (loaded (only 0 1) cbz_prog) !! "skip"%string = Some 2
  /\ (exists c' r',
        Step (loaded (only 0 1) cbz_prog) (loaded_rng (only 0 1) cbz_prog)
        = Ok (true, c', r') /\ PC c' = 1)
  /\ Registers (loaded (only 1 1) cbz_prog) !! 1%nat = Some 1
  /\ (exists c' r',
        Step (loaded (only 1 1) cbz_prog) (loaded_rng (only 1 1) cbz_prog)
        = Ok (true, c', r') /\ PC c' = 0)
  /\ parse_program cbnz_text = Ok (cbnz_prog, None)
  /\ (exists c' r',
        Step (loaded (only 1 1) cbnz_prog) (loaded_rng (only 1 1) cbnz_prog)
        = Ok (true, c', r') /\ PC c' = 1).
Proof.
  repeat split; try (vm_compute; reflexivity);
    eexists _, _; (split; [vm_compute; reflexivity|reflexivity]).
Qed.

(** C5, the code at a failing input.  When [Load] draws 1 for every
    register, XZR included, the program S1 ends with [X3 = 14] and stores it
    at address 1: the byte at address 0 is the random fill of the fresh
    block. *)
Theorem S1_at_failing_input :
  parse_program S1_text = Ok (S1_prog, None)
  /\ Registers (loaded (fun _ => 1) S1_prog) !! Z.to_nat XZR = Some 1
  /\ exists c r' m,
       main 4 ones S1_prog = Ok (c, r')
       /\ Registers c !! 3%nat = Some 14
       /\ Memory c = Some m
       /\ Mem.byte_at m 0 = Some Byte.x01
       /\ Mem.byte_at m 1 = Some Byte.x0e.
Proof.
  split; [vm_compute; reflexivity|]. split; [vm_compute; reflexivity|].
  eexists _, _, _. split; [vm_compute; reflexivity|].
  split; [reflexivity|]. split; [reflexivity|]. split; vm_compute; reflexivity.
Qed.

(** C7, the code at failing inputs.  [LSL X1, X2, #3] with [X2 = 1] and
    [X0 = 0] leaves 1 in [X1], not 8: the mnemonic does not end in [I], so
    [valuesFor] takes the count from register [as.Reg] (X0), not from [Imm].
    [LSR X1, X2, #3] with [X2 = 8] likewise leaves 8, not 1. *)
Theorem LSL_at_failing_input :
  parse_program lsl_text = Ok (lsl_prog, None)
  /\ Registers (loaded (only 2 1) lsl_prog) !! 2%nat = Some 1
  /\ (exists c' r',
        Step (loaded (only 2 1) lsl_prog) (loaded_rng (only 2 1) lsl_prog)
        = Ok (false, c', r') /\ Registers c' !! 1%nat = Some 1)
  /\ parse_program lsr_text = Ok (lsr_prog, None)
  /\ Registers (loaded (only 2 8) lsr_prog) !! 2%nat = Some 8
  /\ (exists c' r',
        Step (loaded (only 2 8) lsr_prog) (loaded_rng (only 2 8) lsr_prog)
        = Ok (false, c', r') /\ Registers c' !! 1%nat = Some 8).
Proof.
  repeat split; try (vm_compute; reflexivity);
    eexists _, _; (split; [vm_compute; reflexivity|reflexivity]).
Qed.

(** C8, the code at the failing input.  On [ADDI X1, X2] the comma that
    should follow [X2] is missing; [expect] meets the end of the input and its
    [io.EOF] is returned as it is, so [Next] reports the end-of-stream
    sentinel and the driver takes the text for a complete, empty program.
    Only when the comma is there does the error name the immediate. *)
Theorem ADDI_missing_operand_is_EOF :
  (exists i p, Next (Use Parse.new "ADDI X1, X2") = Ok (i, Some EOF, p))
  /\ parse_program "ADDI X1, X2" = Ok ([], None)
  /\ (exists i p, Next (Use Parse.new "ADDI X1, X2,")
                  = Ok (i, Some (Errorf "immediate: not an integer: EOF"), p)).
Proof.
  split; [eexists _, _; vm_compute; reflexivity|].
  split; [vm_compute; reflexivity|eexists _, _; vm_compute; reflexivity].
Qed.

(** C10 as stated fails: [FADDS S1, S2, S3] is in the table and run by no
    handler, [PC] is inside the program, and [Step] panics reading register
    34 instead of returning true. *)
Lemma Step_FADDS_panics :
  parse_program fadds_text = Ok (fadds_prog, None)
  /\ In "FADDS"%string unhandled_opcodes
  /\ PC (loaded (fun _ => 0) fadds_prog)
     < Z.of_nat (length (prog (loaded (fun _ => 0) fadds_prog)))
  /\ Step (loaded (fun _ => 0) fadds_prog) (loaded_rng (fun _ => 0) fadds_prog)
     = panic "index out of range"
  /\ Step (loaded (fun _ => 0) fadds_prog) (loaded_rng (fun _ => 0) fadds_prog)
     <> Ok (true, loaded (fun _ => 0) fadds_prog,
            loaded_rng (fun _ => 0) fadds_prog).
Proof.
  split; [vm_compute; reflexivity|].
  split; [cbn; tauto|]. split; [reflexivity|].
  assert (H : Step (loaded (fun _ => 0) fadds_prog)
                (loaded_rng (fun _ => 0) fadds_prog)
              = panic "index out of range") by (vm_compute; reflexivity).
  split; [exact H|]. rewrite H. discriminate.
Qed.

(** Scenario S5: sixteen bytes at address 1016, across the first block
    boundary, in an empty memory. *)
Lemma Write_then_Read_witness :
  Mem.wf Mem.empty
  /\ Z.of_nat (length sixteen) < 2 ^ 63
  /\ length (replicate 16 Byte.x00) = length sixteen
  /\ exists m' r',
       Mem.Write Mem.empty zeros sixteen 1016 = Ok (16, None, m', r')
       /\ Mem.Read m' r' (replicate 16 Byte.x00) 1016
          = Ok (16, None, sixteen, m', r').
Proof.
  split; [apply wf_empty|]. split; [reflexivity|]. split; [reflexivity|].
  apply (Write_then_Read Mem.empty zeros sixteen (replicate 16 Byte.x00) 1016);
    [apply wf_empty|reflexivity|reflexivity].
Defined.

(** [B end], [BL func] at [PC = 1], and an untaken [B.EQ]. *)
Lemma branch_semantics_witness :
  (exists b c',
     Step (loaded (fun _ => 0) b_prog) zeros = Ok (b, c', zeros)
     /\ PC c' = default 0 (labels (loaded (fun _ => 0) b_prog) !! "end"%string))
  /\ (exists b c',
     Step (with_PC (loaded (fun _ => 0) bl_prog) 1) zeros = Ok (b, c', zeros)
     /\ Registers c' !! Z.to_nat LR = Some 1
     /\ PC c' = default 0 (labels (loaded (fun _ => 0) bl_prog) !! "func"%string))
  /\ (exists b c',
     Step (loaded (fun _ => 0) beq_prog) zeros = Ok (b, c', zeros)
     /\ PC c' = 0 + 1).
Proof.
  split; [|split].
  - destruct (branch_semantics (loaded (fun _ => 0) b_prog) zeros
                (bto "B" "end")) as (HB & _ & _);
      [apply wfb_wf; reflexivity|reflexivity|by vm_compute|by vm_compute|].
    apply HB; [reflexivity|discriminate].
  - destruct (branch_semantics (with_PC (loaded (fun _ => 0) bl_prog) 1) zeros
                (bto "BL" "func")) as (_ & HBL & _);
      [apply wfb_wf; reflexivity|reflexivity|by vm_compute|by vm_compute|].
    apply HBL; [reflexivity|discriminate].
  - destruct (branch_semantics (loaded (fun _ => 0) beq_prog) zeros
                (bto "B.EQ" "equal")) as (_ & _ & HC);
      [apply wfb_wf; reflexivity|reflexivity|by vm_compute|by vm_compute|].
    apply (HC "EQ"%string); reflexivity.
Defined.

(** One past a one-line program; and after the step that ends one. *)
Lemma Step_needs_PC_in_range_witness :
  Step (with_PC (loaded (fun _ => 0) sdiv_prog) 1) zeros
  = panic "index out of range"
  /\ (forall c' r',
        Step (loaded (fun _ => 0) lsl_prog) zeros = Ok (false, c', r') ->
        Step c' r' = panic "index out of range").
Proof.
  split.
  - destruct (Step_needs_PC_in_range
                (with_PC (loaded (fun _ => 0) sdiv_prog) 1) zeros) as [H _];
      [discriminate|].
    apply H. by vm_compute.
  - destruct (Step_needs_PC_in_range (loaded (fun _ => 0) lsl_prog) zeros)
      as [_ H]; [discriminate|].
    exact H.
Defined.

(** [SDIV X1, X2, X3] is stepped over in place; [FADDS S1, S2, S3] panics. *)
Lemma Step_unhandled_witness :
  Step (loaded (fun _ => 0) sdiv_prog) zeros
  = Ok (true, loaded (fun _ => 0) sdiv_prog, zeros)
  /\ Step (loaded (fun _ => 0) fadds_prog) zeros = panic "index out of range".
Proof.
  split.
  - destruct (Step_unhandled (loaded (fun _ => 0) sdiv_prog) zeros
                (rrr "SDIV" 1 2 3)) as [H _];
      [apply wfb_wf; reflexivity|reflexivity|cbn; tauto
      |by vm_compute|by vm_compute|].
    apply H. by vm_compute.
  - destruct (Step_unhandled (loaded (fun _ => 0) fadds_prog) zeros
                (rrr "FADDS" (S0 + 1) (S0 + 2) (S0 + 3))) as [_ H];
      [apply wfb_wf; reflexivity|reflexivity|cbn; tauto
      |by vm_compute|by vm_compute|].
    apply H. intros [[_ Hlt] _]. revert Hlt. by vm_compute.
Defined.

End Claims.

(* ===================================================================== *)
(** * Further properties of the code *)
(* ===================================================================== *)

(** ** Memory: reads, and what a write leaves alone *)

Section MemoryMore.
Import Mem.

(** Whether an address lies in the range of [len] bytes from [A]. *)
Lemma classic_range len A x :
  (exists i, 0 <= i < len /\ x = wrap64 (A + i))
  \/ (forall i, 0 <= i < len -> x <> wrap64 (A + i)).
Proof.
  destruct (decide (0 <= x < 2 ^ 64 /\ wrap64 (x - A) < len)) as [[Hx Hl]|Hn].
  - left. exists (wrap64 (x - A)). split; [pose proof (wrap64_range (x - A)); lia|].
    unfold wrap64 in *. change (2 ^ 64) with 18446744073709551616 in *.
    rewrite Zplus_mod_idemp_r. replace (A + (x - A)) with x by lia.
    symmetry. apply Z.mod_small. lia.
  - right. intros i Hi ->. apply Hn. split; [apply wrap64_range|].
    unfold wrap64 in *. change (2 ^ 64) with 18446744073709551616 in *.
    rewrite Zminus_mod_idemp_l. replace (A + i - A) with i by lia.
    pose proof (Z.mod_le i 18446744073709551616). 
    destruct (Z.lt_ge_cases i 18446744073709551616).
    + rewrite Z.mod_small by lia. lia.
    + pose proof (Z.mod_pos_bound i 18446744073709551616). lia.
Qed.

(** A block that exists holds a byte at each of its 1024 offsets. *)
Lemma byte_at_is_Some m a :
  wf m -> is_Some (blocks m !! (a / BlockSize)) -> is_Some (byte_at m a).
Proof.
  intros Hwf [bk Hbk]. unfold byte_at. rewrite Hbk.
  apply lookup_lt_is_Some. rewrite (Hwf _ _ Hbk).
  pose proof (Z.mod_pos_bound a BlockSize eq_refl). unfold BlockSize in *. lia.
Qed.

Lemma byte_at_block m a v :
  byte_at m a = Some v -> is_Some (blocks m !! (a / BlockSize)).
Proof. unfold byte_at. destruct (blocks m !! _); [eauto|discriminate]. Qed.

(** [getOrMakeBlock] keeps the memory well formed and every byte it had. *)
Lemma getOrMakeBlock_keeps m r a bk m1 r1 :
  wf m -> getOrMakeBlock m r a = (bk, m1, r1) ->
  wf m1
  /\ blocks m1 !! (a / BlockSize) = Some bk
  /\ (forall x v, byte_at m x = Some v -> byte_at m1 x = Some v).
Proof.
  intros Hwf Hg.
  destruct (getOrMakeBlock_spec m r a Hwf) as (bk' & m1' & r1' & Hg' & Hlen & Hm1 & Hold).
  rewrite Hg in Hg'. injection Hg' as <- <- <-.
  split; [|split].
  - intros k b Hk. rewrite Hm1 in Hk.
    destruct (decide (a / BlockSize = k)) as [<-|Hne].
    + rewrite lookup_insert_eq in Hk. by injection Hk as <-.
    + rewrite lookup_insert_ne in Hk by done. by apply (Hwf k).
  - rewrite Hm1. apply lookup_insert_eq.
  - intros x v Hx. unfold byte_at in *. rewrite Hm1.
    destruct (decide (a / BlockSize = x / BlockSize)) as [Heq|Hne].
    + rewrite <- Heq in *. rewrite lookup_insert_eq.
      destruct (blocks m !! (a / BlockSize)) as [bk0|] eqn:E; [|discriminate].
      by destruct (Hold bk0 eq_refl) as (-> & _ & _).
    + by rewrite lookup_insert_ne.
Qed.

(** The whole loop of [Read] on any memory: it returns [total]; the bytes
    it put in the buffer from [n] on are the ones the memory now holds; the
    buffer below [n] and every byte the memory had are as before. *)
Lemma Read_loop_any addr : forall fuel n m r buf,
  let total := Z.of_nat (length buf) in
  total < 2 ^ 63 -> wf m -> 0 <= n <= total -> total - n <= Z.of_nat fuel ->
  exists buf' m' r',
    Read_loop fuel m r buf addr n = Ok (total, buf', m', r')
    /\ wf m' /\ length buf' = length buf
    /\ (forall i, n <= i < total ->
          byte_at m' (wrap64 (addr + i)) = buf' !! Z.to_nat i)
    /\ (forall i, (i < Z.to_nat n)%nat -> buf' !! i = buf !! i)
    /\ (forall x v, byte_at m x = Some v -> byte_at m' x = Some v).
Proof.
  induction fuel as [|fuel IH]; intros n m r buf total Ht Hwf Hn Hf.
  - assert (n = total) as -> by lia.
    exists buf, m, r. cbn [Read_loop]. fold total. rewrite Z.ltb_irrefl.
    repeat split; auto. intros; lia.
  - destruct (Z.eq_dec n total) as [->|Hne].
    { exists buf, m, r. cbn [Read_loop]. fold total. rewrite Z.ltb_irrefl.
      repeat split; auto. intros; lia. }
    assert (Hn' : 0 <= n < total) by lia.
    cbn [Read_loop]. fold total.
    destruct (Z.ltb_spec n total) as [_|]; [|lia].
    set (a := wrap64 (addr + n)).
    set (c := chunk addr total n).
    destruct (chunk_range addr total n Hn') as [Hc Hoc]. fold a c in Hc, Hoc.
    pose proof (Z.mod_pos_bound a BlockSize eq_refl) as Ho.
    destruct (getOrMakeBlock m r a) as [[bk m1] r1] eqn:Hg.
    destruct (getOrMakeBlock_keeps m r a bk m1 r1 Hwf Hg) as (Hwf1 & Hbk & Hkeep1).
    pose proof (Hwf1 _ _ Hbk) as Hlen.
    rewrite (window_eq addr total n Hn' Ht). fold a.
    change (Z.min (BlockSize - a mod BlockSize) (total - n)) with c.
    assert (Hs : slice_ok (a mod BlockSize) (a mod BlockSize + c)
                   (Z.of_nat (length (data bk))) = true).
    { unfold slice_ok. rewrite Hlen. unfold BlockSize in *.
      repeat (apply andb_true_intro; split); apply Z.leb_le; lia. }
    rewrite Hs.
    set (src := drop (Z.to_nat (a mod BlockSize))
                  (take (Z.to_nat (a mod BlockSize + c)) (data bk))).
    assert (Hsrc : length src = Z.to_nat c).
    { unfold src. rewrite length_drop, length_take, Hlen.
      unfold BlockSize in *. lia. }
    assert (Hsl : (Z.to_nat n <= length buf <= length buf)%nat)
      by (unfold total in *; lia).
    assert (Hcn : Nat.min (length buf - Z.to_nat n) (length src) = Z.to_nat c)
      by (rewrite Hsrc; unfold total in *; lia).
    destruct (copy_into buf (Z.to_nat n) (length buf) src) as [buf1 c0] eqn:Ec.
    assert (Hc0 : c0 = Z.to_nat c)
      by (apply (f_equal snd) in Ec; cbn [snd copy_into] in Ec; lia).
    assert (Hbuf1 : buf1 = (copy_into buf (Z.to_nat n) (length buf) src).1)
      by (by rewrite Ec).
    assert (Hlen1 : length buf1 = length buf)
      by (rewrite Hbuf1; by apply copy_into_length).
    subst c0. rewrite Z2Nat.id by lia.
    rewrite (wrap64_small (n + c))
      by (change (2 ^ 63) with 9223372036854775808 in Ht;
          change (2 ^ 64) with 18446744073709551616; lia).
    destruct (IH (n + c) m1 r1 buf1) as (buf' & m' & r' & Hrun & Hwf' & Hlen' & Hnew & Hold & Hkeep);
      [rewrite Hlen1; exact Ht|exact Hwf1|rewrite Hlen1; fold total; lia
      |rewrite Hlen1; fold total; lia|].
    rewrite Hlen1 in Hrun, Hnew. fold total in Hrun, Hnew.
    exists buf', m', r'. split; [exact Hrun|]. split; [exact Hwf'|].
    split; [congruence|]. split; [|split].
    + intros i Hi. destruct (Z.lt_ge_cases i (n + c)) as [Hlt|Hge];
        [|apply Hnew; lia].
      rewrite Hold by lia.
      replace (Z.to_nat i) with (Z.to_nat n + Z.to_nat (i - n))%nat by lia.
      rewrite Hbuf1, copy_into_lookup_in by (try exact Hsl; lia).
      unfold src. rewrite lookup_drop, lookup_take_lt by lia.
      assert (is_Some (data bk !! (Z.to_nat (a mod BlockSize) + Z.to_nat (i - n))%nat))
        as [v Hv] by (apply lookup_lt_is_Some; rewrite Hlen; unfold BlockSize in *; lia).
      rewrite Hv. apply Hkeep.
      replace i with (n + (i - n)) by lia.
      rewrite wrap64_window by (fold a; lia). fold a.
      destruct (window_block a (i - n)) as [Hk Hm]; [lia|lia|].
      unfold byte_at. rewrite Hk, Hbk, Hm, <- Hv. f_equal. lia.
    + intros i Hi. rewrite Hold by lia.
      rewrite Hbuf1. apply copy_into_lookup_out; [exact Hsl|lia].
    + intros x v Hx. apply Hkeep, Hkeep1, Hx.
Qed.

(** [Read] on any memory, from its loop. *)
Lemma Read_any m r buf A :
  wf m -> Z.of_nat (length buf) < 2 ^ 63 ->
  exists buf' m' r',
    Read m r buf A = Ok (Z.of_nat (length buf), None, buf', m', r')
    /\ wf m' /\ length buf' = length buf
    /\ (forall x v, byte_at m x = Some v -> byte_at m' x = Some v)
    /\ (forall i, 0 <= i < Z.of_nat (length buf) ->
          byte_at m' (wrap64 (A + i)) = buf' !! Z.to_nat i).
Proof.
  intros Hwf Ht.
  destruct (Read_loop_any A (length buf) 0 m r buf Ht Hwf)
    as (buf' & m' & r' & Hrun & Hwf' & Hlen & Hnew & _ & Hkeep); [lia|lia|].
  exists buf', m', r'. unfold Read. rewrite Hrun.
  split; [reflexivity|]. split; [exact Hwf'|]. split; [exact Hlen|].
  split; [exact Hkeep|exact Hnew].
Qed.

(** X2.  [Memory.Read] never fails: on any memory it fills the whole
    buffer and returns its length and a nil error; it changes no byte the
    memory held; what it returns is what the memory holds from then on, the
    bytes that were there as well as the random ones of the blocks it had to
    allocate. *)
Theorem Read_fills_buffer (m : Memory) (r : Rand.rng) (buf : list byte) (A : Z) :
  wf m -> Z.of_nat (length buf) < 2 ^ 63 ->
  exists buf' m' r',
    Read m r buf A = Ok (Z.of_nat (length buf), None, buf', m', r')
    /\ wf m' /\ length buf' = length buf
    /\ (forall x v, byte_at m x = Some v -> byte_at m' x = Some v)
    /\ (forall i, 0 <= i < Z.of_nat (length buf) ->
          byte_at m' (wrap64 (A + i)) = buf' !! Z.to_nat i)
    /\ (forall i v, 0 <= i < Z.of_nat (length buf) ->
          byte_at m (wrap64 (A + i)) = Some v -> buf' !! Z.to_nat i = Some v).
Proof.
  intros Hwf Ht.
  destruct (Read_any m r buf A Hwf Ht)
    as (buf' & m' & r' & Hrun & Hwf' & Hlen & Hkeep & Hnew).
  exists buf', m', r'.
  split; [exact Hrun|]. split; [exact Hwf'|]. split; [exact Hlen|].
  split; [exact Hkeep|]. split; [exact Hnew|].
  intros i v Hi Hv. rewrite <- (Hnew i Hi). by apply Hkeep.
Qed.

(** X3.  Reading the same range again gives the same bytes, allocates
    nothing and draws no randomness: unwritten memory is random but stable. *)
Theorem Read_twice (m : Memory) (r : Rand.rng) (buf buf2 : list byte) (A : Z) :
  wf m -> Z.of_nat (length buf) < 2 ^ 63 -> length buf2 = length buf ->
  exists buf' m' r',
    Read m r buf A = Ok (Z.of_nat (length buf), None, buf', m', r')
    /\ Read m' r' buf2 A = Ok (Z.of_nat (length buf), None, buf', m', r').
Proof.
  intros Hwf Ht Hlen2.
  destruct (Read_any m r buf A Hwf Ht)
    as (buf' & m' & r' & Hrun & Hwf' & Hlen & _ & Hnew).
  exists buf', m', r'. split; [exact Hrun|].
  unfold Read. rewrite Hlen2, <- Hlen.
  rewrite (Read_loop_spec buf' A m' r'); [reflexivity| | | | | | | ].
  - by rewrite Hlen.
  - exact Hwf'.
  - intros i Hi. apply Hnew. by rewrite <- Hlen.
  - congruence.
  - lia.
  - lia.
  - reflexivity.
Qed.

(** [Write] on any memory, from its loop. *)
Lemma Write_any m r B A :
  wf m -> Z.of_nat (length B) < 2 ^ 63 ->
  exists m' r',
    Write m r B A = Ok (Z.of_nat (length B), None, m', r')
    /\ wf m'
    /\ (forall i, 0 <= i < Z.of_nat (length B) ->
          byte_at m' (wrap64 (A + i)) = B !! Z.to_nat i)
    /\ (forall x v,
          (forall i, 0 <= i < Z.of_nat (length B) -> x <> wrap64 (A + i)) ->
          byte_at m x = Some v -> byte_at m' x = Some v).
Proof.
  intros Hwf Ht.
  destruct (Write_loop_spec B A Ht (length B) 0 m r Hwf)
    as (m' & r' & Hw & Hwf' & Hnew & Hkeep); [lia|lia|].
  exists m', r'. unfold Write. rewrite Hw.
  split; [reflexivity|]. split; [exact Hwf'|]. split; [exact Hnew|exact Hkeep].
Qed.

(** X1.  [Memory.Write] never fails, stores every byte of [B], changes no
    byte outside the range it writes, and frees no block. *)
Theorem Write_frame (m : Memory) (r : Rand.rng) (B : list byte) (A : Z) :
  wf m -> Z.of_nat (length B) < 2 ^ 63 ->
  exists m' r',
    Write m r B A = Ok (Z.of_nat (length B), None, m', r')
    /\ wf m'
    /\ (forall i, 0 <= i < Z.of_nat (length B) ->
          byte_at m' (wrap64 (A + i)) = B !! Z.to_nat i)
    /\ (forall x v,
          (forall i, 0 <= i < Z.of_nat (length B) -> x <> wrap64 (A + i)) ->
          byte_at m x = Some v -> byte_at m' x = Some v)
    /\ (forall k, is_Some (blocks m !! k) -> is_Some (blocks m' !! k)).
Proof.
  intros Hwf Ht.
  destruct (Write_any m r B A Hwf Ht)
    as (m' & r' & Hw & Hwf' & Hnew & Hkeep).
  exists m', r'.
  split; [exact Hw|]. split; [exact Hwf'|]. split; [exact Hnew|].
  split; [exact Hkeep|].
  intros k Hk.
  assert (Hdiv : (k * BlockSize) / BlockSize = k)
    by (apply Z.div_mul; discriminate).
  assert (is_Some (byte_at m (k * BlockSize))) as [v Hv]
    by (apply byte_at_is_Some; [exact Hwf|by rewrite Hdiv]).
  rewrite <- Hdiv.
  destruct (classic_range (Z.of_nat (length B)) A (k * BlockSize)) as [(i & Hi & Heq)|Hout].
  - apply (byte_at_block m' _ (default v (B !! Z.to_nat i))).
    rewrite Heq, (Hnew i Hi).
    destruct (B !! Z.to_nat i) eqn:E; [reflexivity|].
    apply lookup_ge_None in E. lia.
  - apply (byte_at_block m' _ v). by apply Hkeep.
Qed.

End MemoryMore.

(** ** Stores and loads *)

Section Endian.
Import Asm Cpu.

Lemma byte_of_Z_value z : Z.of_N (Byte.to_N (Rand.byte_of_Z z)) = z mod 256.
Proof.
  unfold Rand.byte_of_Z.
  pose proof (Z.mod_pos_bound z 256 eq_refl) as Hb.
  destruct (Byte.of_N (Z.to_N (z mod 256))) as [b|] eqn:E.
  - apply Byte.to_of_N in E. cbn. rewrite E. lia.
  - apply Byte.of_N_None_iff in E. lia.
Qed.

(** Decoding the [n] low bytes of [v], least significant first, gives [v]
    modulo [256^n]. *)
Lemma LEUint64_low n : forall v,
  0 <= v ->
  LEUint64 (map (fun k => Rand.byte_of_Z (Z.shiftr v (8 * Z.of_nat k))) (seq 0 n))
  = v mod 2 ^ (8 * Z.of_nat n).
Proof.
  induction n as [|n IH]; intros v Hv.
  - cbn. by rewrite Z.mod_1_r.
  - cbn [seq map]. rewrite <- seq_shift, map_map.
    unfold LEUint64 in *. cbn [fold_right].
    rewrite byte_of_Z_value. change (8 * Z.of_nat 0) with 0. rewrite Z.shiftr_0_r.
    erewrite map_ext; [rewrite (IH (Z.shiftr v 8)) by (apply Z.shiftr_nonneg; lia)|].
    + rewrite Z.shiftr_div_pow2 by lia.
      replace (8 * Z.of_nat (S n)) with (8 + 8 * Z.of_nat n) by lia.
      rewrite Z.pow_add_r by lia. change (2 ^ 8) with 256.
      rewrite (Z.rem_mul_r v 256 (2 ^ (8 * Z.of_nat n))) by lia.
      reflexivity.
    + intros k. cbn beta. rewrite Z.shiftr_shiftr by lia.
      do 2 f_equal. lia.
Qed.

Theorem PutUint64_round_trip (v : Z) :
  0 <= v < 2 ^ 64 -> LEUint64 (PutUint64 v) = v.
Proof.
  intros Hv. unfold PutUint64. rewrite (LEUint64_low 8 v) by lia.
  apply Z.mod_small. exact Hv.
Qed.

Lemma PutUint64_length v : length (PutUint64 v) = 8%nat.
Proof. reflexivity. Qed.

Lemma PutUint64_lookup v k :
  (k < 8)%nat ->
  PutUint64 v !! k = Some (Rand.byte_of_Z (Z.shiftr v (8 * Z.of_nat k))).
Proof.
  intros Hk. unfold PutUint64.
  do 8 (destruct k as [|k]; [reflexivity|]). lia.
Qed.

End Endian.

Section LoadStore.
Import Asm Cpu.

Lemma reg_get_lookup c r v :
  Registers c !! Z.to_nat r = Some v -> reg_get c r = Ok v.
Proof. intros H. unfold reg_get. by rewrite H. Qed.

Lemma wrap64_add_l a k : wrap64 (wrap64 a + k) = wrap64 (a + k).
Proof. unfold wrap64. by rewrite Zplus_mod_idemp_l. Qed.

Lemma wf_with_PC_Memory c m x :
  wf c -> 0 <= x < 2 ^ 64 -> wf (with_PC (with_Memory c m) x).
Proof. intros [H1 H2 H3 H4] Hx. constructor; cbn; assumption. Qed.

(** One [Step] on [STUR]: what it returns, given what [Write] returns. *)
Lemma Step_STUR c r i m v base :
  wf c -> Memory c = Some m ->
  prog c !! Z.to_nat (PC c) = Some i -> Op i = "STUR"%string ->
  gp (Addr.Reg (From i)) -> gp (Reg i) ->
  Registers c !! Z.to_nat (Addr.Reg (To i)) = Some v ->
  Registers c !! Z.to_nat (Addr.Reg (From i)) = Some base ->
  forall n m' r',
  Mem.Write m r (PutUint64 v) (wrap64 (base + Addr.Offset (From i)))
  = Ok (n, None, m', r') ->
  Step c r = Ok (PC c + 1 <? Z.of_nat (length (prog c)),
                 with_PC (with_Memory c (Some m')) (PC c + 1), r').
Proof.
  intros Hwf Hmem Hi Hop Hf Hr Hv Hb n m' r' Hw.
  destruct (lookup_PC c i Hwf Hi) as (Hne & _ & Hpc).
  assert (Ha : arith_op (Op i) = false) by (by rewrite Hop).
  assert (Hbr : branch_op (Op i) = false) by (by rewrite Hop).
  unfold Step. rewrite Hne, Hi, (arith_skip c i Hwf Hf Hr Ha).
  cbn -[Mem.Write PutUint64 wrap64 branch memory].
  rewrite (branch_skip c i Hbr).
  cbn -[Mem.Write PutUint64 wrap64 memory].
  unfold memory. rewrite Hop.
  cbn -[Mem.Write PutUint64 wrap64].
  rewrite (reg_get_lookup _ _ _ Hv), (reg_get_lookup _ _ _ Hb).
  cbn -[Mem.Write PutUint64 wrap64].
  rewrite Hmem, Hw. cbn -[wrap64].
  rewrite wrap64_small by (pose proof (wf_PC c Hwf); lia).
  reflexivity.
Qed.

(** X4.  [STUR Rt, [Rn, #off]] stores the eight bytes of [Rt] at
    [Rn + off], least significant first, advances [PC], and changes neither a
    register, nor a flag, nor any other byte the memory held. *)
Theorem STUR_little_endian (c : CPU) (r : Rand.rng) (i : Instruction)
    (m : Mem.Memory) (v base : Z) :
  wf c -> Memory c = Some m -> Mem.wf m ->
  prog c !! Z.to_nat (PC c) = Some i -> Op i = "STUR"%string ->
  gp (Addr.Reg (From i)) -> gp (Reg i) ->
  Registers c !! Z.to_nat (Addr.Reg (To i)) = Some v ->
  Registers c !! Z.to_nat (Addr.Reg (From i)) = Some base ->
  exists b c' r' m',
    Step c r = Ok (b, c', r')
    /\ Memory c' = Some m' /\ PC c' = PC c + 1
    /\ Registers c' = Registers c /\ Flags c' = Flags c
    /\ (forall k, (k < 8)%nat ->
          Mem.byte_at m' (wrap64 (base + Addr.Offset (From i) + Z.of_nat k))
          = Some (Rand.byte_of_Z (Z.shiftr v (8 * Z.of_nat k))))
    /\ (forall x b0,
          (forall k, (k < 8)%nat ->
             x <> wrap64 (base + Addr.Offset (From i) + Z.of_nat k)) ->
          Mem.byte_at m x = Some b0 -> Mem.byte_at m' x = Some b0).
Proof.
  intros Hwf Hmem Hm Hi Hop Hf Hr Hv Hb.
  destruct (Write_any m r (PutUint64 v)
              (wrap64 (base + Addr.Offset (From i))) Hm)
    as (m' & r' & Hw & _ & Hnew & Hkeep); [by vm_compute|].
  eexists _, _, r', m'. split; [by eapply Step_STUR|].
  split; [reflexivity|]. split; [reflexivity|]. split; [reflexivity|].
  split; [reflexivity|]. split.
  - intros k Hk. rewrite <- wrap64_add_l, (Hnew (Z.of_nat k)), Nat2Z.id
      by (rewrite PutUint64_length; lia).
    by apply PutUint64_lookup.
  - intros x b0 Hx. apply Hkeep. intros k Hk. rewrite PutUint64_length in Hk.
    rewrite wrap64_add_l. replace k with (Z.of_nat (Z.to_nat k)) by lia.
    apply Hx. lia.
Qed.

(** X5.  A value stored by [STUR] is what the next [LDUR] from the same
    base register and offset loads, whatever the memory held and wherever the
    range lies. *)
Theorem STUR_then_LDUR (c : CPU) (r : Rand.rng) (st ld : Instruction)
    (m : Mem.Memory) (v : Z) :
  wf c -> Memory c = Some m -> Mem.wf m ->
  prog c !! Z.to_nat (PC c) = Some st -> Op st = "STUR"%string ->
  prog c !! Z.to_nat (PC c + 1) = Some ld -> Op ld = "LDUR"%string ->
  From ld = From st ->
  gp (Addr.Reg (From st)) -> gp (Reg st) ->
  gp (Addr.Reg (To ld)) -> gp (Reg ld) ->
  Registers c !! Z.to_nat (Addr.Reg (To st)) = Some v ->
  exists c1 r1 b c2,
    Step c r = Ok (true, c1, r1)
    /\ Step c1 r1 = Ok (b, c2, r1)
    /\ Registers c2 = <[Z.to_nat (Addr.Reg (To ld)) := v]> (Registers c)
    /\ PC c2 = PC c + 2 /\ Memory c2 = Memory c1.
Proof.
  intros Hwf Hmem Hm Hst Hopst Hld Hopld Hfrom Hgf Hgr Hgd Hgr2 Hv.
  destruct (reg_get_gp c _ Hwf Hgf) as (base & Hbase & _).
  assert (Hb : Registers c !! Z.to_nat (Addr.Reg (From st)) = Some base).
  { unfold reg_get in Hbase.
    destruct (Registers c !! Z.to_nat (Addr.Reg (From st)));
      [by injection Hbase as ->|discriminate]. }
  assert (Hvr : 0 <= v < 2 ^ 64)
    by exact (proj1 (Forall_lookup _ _) (wf_vals c Hwf) _ _ Hv).
  destruct (Write_any m r (PutUint64 v)
              (wrap64 (base + Addr.Offset (From st))) Hm)
    as (m' & r' & Hw & Hwf' & Hnew & _); [by vm_compute|].
  assert (Hrd : Mem.Read m' r' (replicate 8 "000"%byte)
                  (wrap64 (base + Addr.Offset (From st)))
                = Ok (Z.of_nat (length (PutUint64 v)), None, PutUint64 v, m', r')).
  { unfold Mem.Read.
    rewrite (Read_loop_spec (PutUint64 v) _ m' r' ltac:(by vm_compute) Hwf' Hnew
               (length (replicate 8 "000"%byte)) 0 (replicate 8 "000"%byte));
      [reflexivity|reflexivity|by vm_compute|by vm_compute|reflexivity]. }
  pose proof (Step_STUR c r st m v base Hwf Hmem Hst Hopst Hgf Hgr Hv Hb _ _ _ Hw)
    as Hstep1.
  destruct (lookup_PC c st Hwf Hst) as (_ & _ & Hpc).
  pose proof (lookup_lt_Some _ _ _ Hld) as Hlen.
  pose proof (wf_PC c Hwf) as Hpc0.
  assert (Hlt : (PC c + 1 <? Z.of_nat (length (prog c))) = true)
    by (apply Z.ltb_lt; lia).
  rewrite Hlt in Hstep1.
  set (c1 := with_PC (with_Memory c (Some m')) (PC c + 1)) in *.
  assert (Hwf1 : wf c1) by (apply wf_with_PC_Memory; [exact Hwf|lia]).
  assert (Hld1 : prog c1 !! Z.to_nat (PC c1) = Some ld) by exact Hld.
  destruct (lookup_PC c1 ld Hwf1 Hld1) as (Hne1 & _ & Hpc1).
  assert (Ha : arith_op (Op ld) = false) by (by rewrite Hopld).
  assert (Hbr : branch_op (Op ld) = false) by (by rewrite Hopld).
  assert (Hgf1 : gp (Addr.Reg (From ld))) by (by rewrite Hfrom).
  exists c1, r'. eexists _, _. split; [exact Hstep1|]. split.
  - unfold Step. rewrite Hne1, Hld1, (arith_skip c1 ld Hwf1 Hgf1 Hgr2 Ha).
    cbn -[Mem.Read wrap64 branch memory].
    rewrite (branch_skip c1 ld Hbr).
    cbn -[Mem.Read wrap64 memory].
    unfold memory. rewrite Hopld.
    cbn -[Mem.Read wrap64 LEUint64 reg_set replicate].
    rewrite Hfrom, (reg_get_lookup c1 _ _ Hb).
    cbn -[Mem.Read wrap64 LEUint64 reg_set replicate].
    change (Memory c1) with (Some m'). cbv beta iota.
    rewrite Hrd.
    cbn -[wrap64 LEUint64 PutUint64 reg_set].
    rewrite (reg_set_gp _ _ _ (wf_with_PC_Memory c (Some m') (PC c + 1) Hwf ltac:(lia)) Hgd).
    cbn -[wrap64 LEUint64 PutUint64]. reflexivity.
  - cbn -[wrap64 LEUint64 PutUint64]. rewrite (PutUint64_round_trip v Hvr).
    split; [reflexivity|]. split; [|reflexivity].
    assert (Hpc2 : PC c + 1 + 1 < 2 ^ 64) by exact Hpc1.
    rewrite wrap64_small by lia. lia.
Qed.

End LoadStore.

(** ** What a step touches *)

Section StepFrame.
Import Asm Cpu.

(** The fields other than [PC], [Registers], [Flags] and [Memory]. *)
Ltac split_bind H :=
  repeat match type of H with
  | (if ?b then _ else _) = _ => destruct b eqn:?
  | (match ?x with _ => _ end) = _ => destruct x eqn:?
  | _ ≫= _ = Ok _ =>
      let a := fresh "a" in let Ha := fresh "Ha" in
      apply bind_Ok in H; destruct H as (a & Ha & H)
  | panic _ = Ok _ => discriminate H
  end.

Lemma reg_set_fields c r v c' :
  reg_set c r v = Ok c' ->
  PC c' = PC c /\ Flags c' = Flags c /\ Err c' = Err c
  /\ Memory c' = Memory c /\ labels c' = labels c /\ prog c' = prog c.
Proof.
  unfold reg_set. intros H. destruct (_ <? _)%nat; [|discriminate].
  injection H as <-. repeat split.
Qed.

Lemma setFlags_fields c i k c' :
  setFlags c i k = Ok c' ->
  PC c' = PC c /\ Registers c' = Registers c /\ Err c' = Err c
  /\ Memory c' = Memory c /\ labels c' = labels c /\ prog c' = prog c
  /\ (HasSuffix (Op i) "S" = false -> Flags c' = Flags c).
Proof.
  unfold setFlags. intros H.
  destruct (HasSuffix (Op i) "S") eqn:E; cbn [negb] in H.
  - split_bind H; injection H as <-; repeat split; discriminate.
  - injection H as <-. repeat split.
Qed.

Ltac use_fields :=
  repeat match goal with
  | H : reg_set _ _ _ = Ok _ |- _ =>
      apply reg_set_fields in H; destruct H as (? & ? & ? & ? & ? & ?)
  | H : setFlags _ _ _ = Ok _ |- _ =>
      apply setFlags_fields in H; destruct H as (? & ? & ? & ? & ? & ? & ?)
  end.

Lemma arith_fields c i b c' :
  arith c i = Ok (b, c') ->
  PC c' = PC c /\ Err c' = Err c /\ Memory c' = Memory c
  /\ labels c' = labels c /\ prog c' = prog c
  /\ (HasSuffix (Op i) "S" = false -> Flags c' = Flags c).
Proof.
  unfold arith. intros H.
  apply bind_Ok in H. destruct H as ([[dst x] y] & _ & H).
  unfold Add64, Sub64 in H.
  split_bind H; use_fields; injection H as <- <-;
    repeat split; try congruence; intros Hs; auto; try congruence.
  all: match goal with F : _ -> Flags _ = _ |- _ => rewrite (F Hs) end; congruence.
Qed.

Lemma branch_fields c i b c' :
  branch c i = Ok (b, c') ->
  Flags c' = Flags c /\ Err c' = Err c /\ Memory c' = Memory c
  /\ labels c' = labels c /\ prog c' = prog c.
Proof.
  unfold branch. intros H.
  split_bind H; use_fields; injection H as <- <-; cbn; repeat split; congruence.
Qed.

Lemma memory_fields c r i b c' r' :
  memory c r i = Ok (b, c', r') ->
  PC c' = PC c /\ Flags c' = Flags c /\ Err c' = Err c
  /\ labels c' = labels c /\ prog c' = prog c
  /\ (memory_op (Op i) = false -> Memory c' = Memory c /\ r' = r).
Proof.
  unfold memory, memory_op. intros H.
  destruct (String.eqb (Op i) "STUR") eqn:E1;
    [|destruct (String.eqb (Op i) "LDUR") eqn:E2].
  - split_bind H; injection H as <- <- <-;
      repeat split; discriminate.
  - split_bind H; use_fields; injection H as <- <- <-;
      repeat split; try assumption; discriminate.
  - injection H as <- <- <-. repeat split.
Qed.

Lemma Step_fields c r b c' r' i :
  prog c !! Z.to_nat (PC c) = Some i -> Step c r = Ok (b, c', r') ->
  Err c' = Err c /\ labels c' = labels c /\ prog c' = prog c
  /\ (HasSuffix (Op i) "S" = false -> Flags c' = Flags c)
  /\ (memory_op (Op i) = false -> Memory c' = Memory c /\ r' = r).
Proof.
  intros Hi H. unfold Step in H.
  destruct (length (prog c) =? 0)%nat.
  { injection H as <- <- <-. repeat split. }
  rewrite Hi in H.
  apply bind_Ok in H. destruct H as ([ok c1] & Ha & H).
  apply arith_fields in Ha. destruct Ha as (A1 & A2 & A3 & A4 & A5 & A6).
  apply bind_Ok in H. destruct H as ([c2 r2] & Hb & H).
  injection H as <- <- <-.
  destruct ok.
  - injection Hb as <- <-. cbn. repeat split; auto.
  - apply bind_Ok in Hb. destruct Hb as ([ok2 c3] & Hb & H).
    apply branch_fields in Hb. destruct Hb as (B1 & B2 & B3 & B4 & B5).
    destruct ok2.
    + injection H as <- <-. repeat split; try congruence.
      intros Hs. rewrite B1. auto.
    + apply bind_Ok in H. destruct H as ([[ok3 c4] r4] & Hc & H).
      apply memory_fields in Hc.
      destruct Hc as (C1 & C2 & C3 & C4 & C5 & C6).
      assert (Hres : c2 = c4 \/ c2 = with_PC c4 (wrap64 (PC c4 + 1)))
        by (destruct ok3; injection H as <- <-; auto).
      assert (r2 = r4) as -> by (destruct ok3; by injection H as <- <-).
      assert (Err c2 = Err c4 /\ labels c2 = labels c4 /\ prog c2 = prog c4
              /\ Flags c2 = Flags c4 /\ Memory c2 = Memory c4) as (D1 & D2 & D3 & D4 & D5)
        by (destruct Hres as [->| ->]; repeat split).
      split; [congruence|]. split; [congruence|]. split; [congruence|].
      split.
      * intros Hs. rewrite D4, C2, B1. auto.
      * intros Hm. destruct (C6 Hm) as [E1 E2]. split; congruence.
Qed.

(** X8.  [Step] never changes the program, the label map or the error
    slot. *)
Theorem Step_keeps_program (c : CPU) (r : Rand.rng) b c' r' :
  Step c r = Ok (b, c', r') ->
  prog c' = prog c /\ labels c' = labels c /\ Err c' = Err c.
Proof.
  intros H.
  destruct (prog c !! Z.to_nat (PC c)) as [i|] eqn:Hi.
  - destruct (Step_fields c r b c' r' i Hi H) as (E & L & P & _). auto.
  - unfold Step in H. rewrite Hi in H.
    destruct (length (prog c) =? 0)%nat; [|discriminate].
    injection H as <- <- <-. auto.
Qed.

(** X7.  A [Step] changes the flags only on a mnemonic that ends in [S],
    and the memory and the random source only on [STUR] and [LDUR]. *)
Theorem Step_flags_memory_frame (c : CPU) (r : Rand.rng) (i : Instruction)
    b c' r' :
  prog c !! Z.to_nat (PC c) = Some i -> Step c r = Ok (b, c', r') ->
  (HasSuffix (Op i) "S" = false -> Flags c' = Flags c)
  /\ (Op i <> "STUR"%string -> Op i <> "LDUR"%string ->
      Memory c' = Memory c /\ r' = r).
Proof.
  intros Hi H.
  destruct (Step_fields c r b c' r' i Hi H) as (_ & _ & _ & Hf & Hm).
  split; [exact Hf|]. intros H1 H2. apply Hm. unfold memory_op.
  apply String.eqb_neq in H1, H2. by rewrite H1, H2.
Qed.

End StepFrame.

(** ** Branches, the run loop and the label map *)

Section Branches.
Import Asm Cpu.

(** X10.  [B.MI], [B.PL], [B.VS] and [B.VC] are in the opcode table and
    parse as branches, but [shouldBranch] does not know their conditions:
    [Step] panics on them. *)
Theorem Step_unknown_condition (c : CPU) (r : Rand.rng) (i : Instruction) :
  wf c -> prog c !! Z.to_nat (PC c) = Some i ->
  gp (Addr.Reg (From i)) -> gp (Reg i) ->
  In (Op i) ["B.MI"; "B.PL"; "B.VS"; "B.VC"]%string ->
  opcodes (Op i) = Some bformat
  /\ Step c r = panic "unknown comparison".
Proof.
  intros Hwf Hi Hf Hr Hop.
  destruct (lookup_PC c i Hwf Hi) as (Hne & _ & _).
  assert (Ha : arith_op (Op i) = false).
  { cbn [In] in Hop. destruct Hop as [<-|[<-|[<-|[<-|[]]]]]; reflexivity. }
  unfold Step. rewrite Hne, Hi, (arith_skip c i Hwf Hf Hr Ha).
  cbn [In] in Hop.
  destruct Hop as [Hop|[Hop|[Hop|[Hop|[]]]]]; rewrite <- Hop;
    (split; [reflexivity|]); unfold branch; rewrite <- Hop; reflexivity.
Qed.

(** X9.  Where the other branches go: [BR] to the value of its register,
    [B] with a numeric operand that many instructions on from [PC], a
    conditional branch whose condition holds to its label. *)
Theorem branch_targets (c : CPU) (r : Rand.rng) (i : Instruction) :
  wf c -> prog c !! Z.to_nat (PC c) = Some i ->
  gp (Addr.Reg (From i)) -> gp (Reg i) ->
  (Op i = "BR"%string -> forall v,
     Registers c !! Z.to_nat (Addr.Reg (To i)) = Some v ->
     exists b, Step c r = Ok (b, with_PC c v, r))
  /\ (Op i = "B"%string -> Addr.Label (To i) = ""%string ->
     exists b, Step c r = Ok (b, with_PC c (wrap64 (PC c + Addr.Offset (To i))), r))
  /\ (forall cond, Op i = ("B." +:+ cond)%string ->
     shouldBranch c cond = (true, None) ->
     Addr.Label (To i) <> ""%string ->
     exists b, Step c r
       = Ok (b, with_PC c (default 0 (labels c !! Addr.Label (To i))), r)).
Proof.
  intros Hwf Hi Hf Hr.
  destruct (lookup_PC c i Hwf Hi) as (Hne & Hlt & Hpc).
  split; [|split].
  - intros Hop v Hv.
    assert (Ha : arith_op (Op i) = false) by (by rewrite Hop).
    eexists. unfold Step. rewrite Hne, Hi, (arith_skip c i Hwf Hf Hr Ha). cbn.
    unfold branch. rewrite Hop. cbn. unfold reg_get. rewrite Hv. cbn.
    reflexivity.
  - intros Hop Hl.
    assert (Ha : arith_op (Op i) = false) by (by rewrite Hop).
    assert (Hm : memory_op (Op i) = false) by (by rewrite Hop).
    eexists. unfold Step. rewrite Hne, Hi, (arith_skip c i Hwf Hf Hr Ha). cbn.
    unfold branch. rewrite Hop. cbn.
    rewrite memory_skip by exact Hm. cbn. unfold addr. rewrite Hl. cbn.
    reflexivity.
  - intros cond Hop Hc Hl.
    change ("B." +:+ cond)%string with (String "B" (String "." cond)) in Hop.
    assert (Ha : arith_op (Op i) = false) by (by rewrite Hop).
    eexists. unfold Step. rewrite Hne, Hi, (arith_skip c i Hwf Hf Hr Ha). cbn.
    unfold branch. rewrite Hop. cbn.
    rewrite Nat.sub_0_r, substring_all, Hc. cbn.
    replace (String.prefix "" cond) with true by (by destruct cond).
    cbn. rewrite addr_label by exact Hl. reflexivity.
Qed.

(** X11.  The driver's loop ends only with [PC] at or past the end of the
    program it was given. *)
Theorem run_ends_past_program (fuel : nat) (c : CPU) (r : Rand.rng) c' r' :
  prog c <> [] -> run fuel c r = Ok (c', r') ->
  prog c' = prog c /\ Z.of_nat (length (prog c)) <= PC c'.
Proof.
  revert c r. induction fuel as [|fuel IH]; intros c r Hne H; [discriminate|].
  cbn [run] in H. apply bind_Ok in H. destruct H as ([[more c1] r1] & Hs & H).
  pose proof (Step_prog _ _ _ _ _ Hs) as Hp.
  pose proof (Step_answer _ _ _ _ _ Hne Hs) as Hb.
  destruct more.
  - destruct (IH c1 r1) as [E1 E2]; [congruence|exact H|].
    split; congruence.
  - injection H as <- <-. split; [exact Hp|].
    symmetry in Hb. apply Z.ltb_ge in Hb. congruence.
Qed.

(** X12.  The label map after [Load]: a label resolves to the index of the
    last instruction that carries it, and a label no instruction carries is
    not in the map. *)
Theorem Load_label_map (c : CPU) (r : Rand.rng) (p : Program) (l : string) :
  l <> ""%string -> Z.of_nat (length p) < 2 ^ 63 ->
  (forall k ins, p !! k = Some ins -> Label ins = l ->
     (forall k' ins', (k < k')%nat -> p !! k' = Some ins' -> Label ins' <> l) ->
     labels (Load c r p).1.1 !! l = Some (Z.of_nat k))
  /\ ((forall k ins, p !! k = Some ins -> Label ins <> l) ->
      labels (Load c r p).1.1 !! l = None).
Proof.
  intros Hl Hp. split.
  - intros k ins Hk Hlab Hlast. by eapply Load_labels.
  - intros Habs. unfold Load.
    destruct (draw (length (Registers c)) r) as [regs r1]. cbn [fst labels].
    rewrite index_labels_absent by exact Habs. apply lookup_empty.
Qed.

End Branches.

(** ** Arithmetic *)

Section Arith.
Import Asm Cpu.

Lemma assoc_In {V} k (l : list (string * V)) v :
  assoc k l = Some v -> In (k, v) l.
Proof.
  induction l as [|[k' v'] l IH]; cbn; [discriminate|].
  destruct (String.eqb_spec k k') as [->|_]; [intros [= ->]; by left|].
  intros H. right. by apply IH.
Qed.

(** X6.  One [Step] on an arithmetic mnemonic that does not set flags:
    the destination gets the operation applied to [Rn] and to the immediate
    (the mnemonics ending in [I]) or to [Rm] (the others, [LSL] and [LSR]
    included), [PC] advances, and nothing else changes. *)
Theorem Step_plain_arith (c : CPU) (r : Rand.rng) (i : Instruction)
    (imm : bool) (f : Z -> Z -> Z) (x y : Z) :
  wf c -> prog c !! Z.to_nat (PC c) = Some i ->
  assoc (Op i) plain_arith = Some (imm, f) ->
  gp (Addr.Reg (To i)) ->
  Registers c !! Z.to_nat (Addr.Reg (From i)) = Some x ->
  (if imm then Some (Imm i) else Registers c !! Z.to_nat (Reg i)) = Some y ->
  Step c r =
    Ok (PC c + 1 <? Z.of_nat (length (prog c)),
        with_PC (with_Registers c
                   (<[Z.to_nat (Addr.Reg (To i)) := f x y]> (Registers c)))
                (PC c + 1), r).
Proof.
  intros Hwf Hi Hop Hd Hx Hy.
  destruct (lookup_PC c i Hwf Hi) as (Hne & _ & Hpc).
  pose proof (wf_PC c Hwf) as Hpc0.
  apply assoc_In in Hop. unfold plain_arith in Hop. cbn [In] in Hop.
  unfold Step. rewrite Hne, Hi. unfold arith, valuesFor.
  repeat (destruct Hop as [Hop|Hop];
    [ injection Hop as Hop <- <-; symmetry in Hop; rewrite Hop;
      cbn -[wrap64 Z.shiftl Z.shiftr Z.mul Z.add Z.sub Z.land Z.lor Z.lxor];
      unfold reg_get; rewrite Hx;
      cbn -[wrap64 Z.shiftl Z.shiftr Z.mul Z.add Z.sub Z.land Z.lor Z.lxor];
      first [ injection Hy as -> | rewrite Hy ];
      cbn -[wrap64 Z.shiftl Z.shiftr Z.mul Z.add Z.sub Z.land Z.lor Z.lxor];
      unfold Add64, Sub64;
      rewrite (reg_set_gp c _ _ Hwf Hd);
      cbn -[wrap64 Z.shiftl Z.shiftr Z.mul Z.add Z.sub Z.land Z.lor Z.lxor];
      unfold setFlags; rewrite ?Hop;
      cbn -[wrap64 Z.shiftl Z.shiftr Z.mul Z.add Z.sub Z.land Z.lor Z.lxor];
      rewrite (wrap64_small (PC c + 1)) by lia; reflexivity | ]).
  destruct Hop.
Qed.

End Arith.

(** ** The parser: registers, immediates, mnemonics *)

Section ParserFacts.
Import Asm Lex Parse.

(** X14.  Parsing the name [Register.String] prints gives the register
    back, for each of the 96 registers, when the parser expects its bank. *)
Theorem Register_String_parses (r : Register) :
  0 <= r < 96 ->
  exists p', expectRegister (bank r) (Use Parse.new (Register_String r))
             = Ok (r, None, p').
Proof.
  intros Hr.
  assert (Hall : forallb reparsed (seq 0 96) = true) by (vm_compute; reflexivity).
  assert (Hn : reparsed (Z.to_nat r) = true).
  { apply (proj1 (forallb_forall _ _) Hall). apply in_seq. lia. }
  unfold reparsed in Hn. rewrite Z2Nat.id in Hn by lia.
  destruct (expectRegister _ _) as [[[r' [e|]] p']|]; try discriminate.
  apply Z.eqb_eq in Hn. subst r'. by exists p'.
Qed.

Lemma ParseUint_loop_nonneg s0 maxVal cs : forall n0 n,
  0 <= n0 -> ParseUint_loop s0 maxVal cs n0 = (n, None) -> 0 <= n.
Proof.
  induction cs as [|ch cs IH]; intros n0 n Hn0 H; cbn [ParseUint_loop] in H.
  - by injection H as <-.
  - destruct (IsDigit (rune_of ch)) eqn:Hd; [|discriminate].
    destruct (maxVal <? _); [discriminate|].
    apply IH in H; [exact H|].
    unfold IsDigit in Hd. apply andb_prop in Hd. destruct Hd as [Hd _].
    apply Z.leb_le in Hd. lia.
Qed.

Lemma ParseUint_nonneg s bits n : ParseUint s bits = (n, None) -> 0 <= n.
Proof.
  unfold ParseUint. destruct s; [discriminate|].
  apply ParseUint_loop_nonneg. lia.
Qed.

(** The bank of a register [expectRegister] returns, case by case. *)
Lemma expectRegister_in_bank (pre : ascii) (p : Parser) r p' :
  expectRegister pre p = Ok (r, None, p') ->
  (pre = "X"%char /\ 0 <= r < 32)
  \/ (pre = "S"%char /\ 32 <= r < 64)
  \/ (pre = "D"%char /\ 64 <= r < 96).
Proof.
  unfold expectRegister. intros H.
  apply bind_Ok in H. destruct H as ([[t err] p1] & _ & H).
  destruct err; [discriminate|].
  destruct (3 <? String.length t)%nat; [discriminate|].
  assert (Hnum : forall base max,
    (base = 0 /\ max = 30) \/ (base = 32 /\ max = 31) \/ (base = 64 /\ max = 31) ->
    match String.get 0 t with
    | None => panic "index out of range"
    | Some c0 =>
        if negb (Ascii.eqb c0 pre)
        then Ok (0, Some (not_a_register t), p1)
        else
          let '(n, perr) := ParseUint (tail_string t) 8 in
          if bool_decide (perr <> None) || (max <? n)
          then Ok (0, Some (not_a_register t), p1)
          else Ok ((base + n) mod 256, None, p1)
    end = Ok (r, None, p') ->
    base <= r <= base + max).
  { intros base max Hb Hres.
    destruct (String.get 0 t); [|discriminate].
    destruct (negb _); [discriminate|].
    destruct (ParseUint (tail_string t) 8) as [n perr] eqn:Hp.
    destruct perr as [e|]; [discriminate|].
    cbn in Hres. destruct (Z.ltb_spec max n); [discriminate|].
    injection Hres as <- _. apply ParseUint_nonneg in Hp.
    rewrite Z.mod_small by lia. lia. }
  destruct (Ascii.eqb_spec pre "X") as [->|HX].
  - left. split; [reflexivity|]. cbn [Ascii.eqb] in H.
    unfold SP, FP, LR, XZR, IP0, IP1, X28, X29, X30, X16, X17, X0 in H.
    repeat match type of H with
    | (if ?b then _ else _) = _ => destruct b
    | match (if ?b then _ else _) with _ => _ end = _ => destruct b
    end; try (injection H as <- _; lia).
    apply (Hnum 0 30) in H; [lia|auto].
  - destruct (Ascii.eqb_spec pre "S") as [->|HS].
    + right. left. split; [reflexivity|]. cbn in H. unfold S0 in H.
      apply (Hnum 32 31) in H; [lia|auto].
    + destruct (Ascii.eqb_spec pre "D") as [->|HD]; [|discriminate].
      right. right. split; [reflexivity|]. cbn in H. unfold D0 in H.
      apply (Hnum 64 31) in H; [lia|auto].
Qed.

(** X13.  A register [expectRegister] returns lies in the bank it was
    asked for; general-purpose registers are below 32, so an [X] operand the
    parser accepts never leaves the register array. *)
Theorem expectRegister_bank (pre : ascii) (p : Parser) r p' :
  expectRegister pre p = Ok (r, None, p') ->
  (pre = "X"%char /\ 0 <= r < 32)
  \/ (pre = "S"%char /\ 32 <= r < 64)
  \/ (pre = "D"%char /\ 64 <= r < 96).
Proof. apply expectRegister_in_bank. Qed.


End ParserFacts.

Section ParserMore.
Import Asm Lex Parse Cpu.

Lemma ParseUint_loop_le s0 maxVal cs : forall n0 n,
  n0 <= maxVal -> ParseUint_loop s0 maxVal cs n0 = (n, None) -> n <= maxVal.
Proof.
  induction cs as [|ch cs IH]; intros n0 n Hn0 H; cbn [ParseUint_loop] in H.
  - by injection H as <-.
  - destruct (IsDigit (rune_of ch)); [|discriminate].
    destruct (Z.ltb_spec maxVal (n0 * 10 + (rune_of ch - 48))); [discriminate|].
    by apply IH in H.
Qed.

(** X15.  An immediate the parser accepts is below [2^32], whatever width
    the format parser asked for. *)
Theorem expectImmediate_range (bitsize : Z) (p : Parser) n p' :
  expectImmediate bitsize p = Ok (n, None, p') -> 0 <= n < 2 ^ 32.
Proof.
  unfold expectImmediate. intros H.
  apply bind_Ok in H. destruct H as ([[imm err] p1] & _ & H).
  destruct err; [discriminate|].
  destruct (String.get 0 imm); [|discriminate].
  destruct (ParseUint _ 32) as [n1 perr] eqn:Hp.
  destruct perr; [discriminate|]. injection H as <- _.
  split; [by apply ParseUint_nonneg in Hp|].
  unfold ParseUint in Hp. destruct (if Ascii.eqb a "#" then _ else _); [discriminate|].
  apply ParseUint_loop_le in Hp; lia.
Qed.

Ltac parser_inv H :=
  repeat match type of H with
  | (if ?b then _ else _) = _ => destruct b
  | (match ?x with _ => _ end) = _ => destruct x
  | _ ≫= _ = Ok _ =>
      let a := fresh "a" in let Ha := fresh "Ha" in
      apply bind_Ok in H; destruct H as (a & Ha & H)
  | panic _ = Ok _ => discriminate H
  end.

(** The format parsers fill operands only: the mnemonic and the line's
    label stay. *)
Lemma format_parser_keeps f fp i p i' e p' :
  parser_of f = Some fp -> fp i p = Ok (i', e, p') ->
  Op i' = Op i /\ Label i' = Label i.
Proof.
  intros Hf H. destruct f; cbn in Hf; try discriminate; injection Hf as <-.
  - unfold rformatParser in H. parser_inv H; injection H as <- _ _; auto.
  - unfold iformatParser in H. parser_inv H; injection H as <- _ _; auto.
  - unfold dformatParser in H. parser_inv H; injection H as <- _ _; auto.
  - unfold bformatParser in H. parser_inv H; injection H as <- _ _; auto.
  - unfold cbformatParser in H. parser_inv H; injection H as <- _ _; auto.
  - unfold iwformatParser in H. parser_inv H; injection H as <- _ _; auto.
Qed.

(** X16.  An instruction [Next] returns without an error carries a
    mnemonic of the opcode table, one that has a parser. *)
Theorem Next_opcode_known (p : Parser) i p' :
  Next p = Ok (i, None, p') ->
  exists f fp, opcodes (Op i) = Some f /\ parser_of f = Some fp.
Proof.
  unfold Next. intros H.
  apply bind_Ok in H. destruct H as ([[name err] p1] & _ & H).
  destruct err; [discriminate|].
  apply bind_Ok in H. destruct H as ([colon p2] & _ & H).
  apply bind_Ok in H. destruct H as ([[i0 err] p3] & _ & H).
  destruct err; [discriminate|].
  destruct (opcodes (Op i0)) as [f|] eqn:Hop; [|discriminate].
  destruct (parser_of f) as [fp|] eqn:Hf; [|discriminate].
  destruct (format_parser_keeps f fp i0 p3 i None p' Hf H) as [E _].
  exists f, fp. rewrite E. auto.
Qed.

(** The registers of an instruction [rformatParser] accepts are the ones
    [expectRegister] returned for the bank of its mnemonic. *)
Lemma rformatParser_regs i p i' p' :
  rformatParser i p = Ok (i', None, p') ->
  Op i' = Op i
  /\ (exists q q', expectRegister (registerPrefix i) q
                   = Ok (Addr.Reg (From i'), None, q'))
  /\ (exists q q', expectRegister (registerPrefix i) q = Ok (Reg i', None, q')).
Proof.
  unfold rformatParser. intros H.
  apply bind_Ok in H. destruct H as ([[r1 e1] p1] & H1 & H).
  destruct e1; [discriminate|].
  apply bind_Ok in H. destruct H as ([[x e2] p2] & _ & H).
  destruct e2; [discriminate|].
  apply bind_Ok in H. destruct H as ([[r2 e3] p3] & H2 & H).
  destruct e3; [discriminate|].
  apply bind_Ok in H. destruct H as ([[y e4] p4] & _ & H).
  destruct e4; [discriminate|].
  apply bind_Ok in H. destruct H as ([[r3 e5] p5] & H3 & H).
  destruct e5; [discriminate|].
  injection H as <- <-. cbn. split; [reflexivity|]. eauto 6.
Qed.

(** No R-format mnemonic of the table ends in [I]. *)
Lemma rformat_no_I op : opcodes op = Some rformat -> HasSuffix op "I" = false.
Proof.
  unfold opcodes. intros H.
  assert (Hall : forallb (fun kv => match snd kv with
                                    | rformat => negb (HasSuffix (fst kv) "I")
                                    | _ => true end) opcodes_table = true)
    by (vm_compute; reflexivity).
  revert H. induction opcodes_table as [|[k v] l IH]; cbn; [discriminate|].
  cbn in Hall. apply andb_prop in Hall. destruct Hall as [Hk Hl].
  destruct (String.eqb_spec op k) as [->|_]; [|by apply IH].
  intros [= ->]. by apply negb_true_iff in Hk.
Qed.

(** X17.  A float instruction of the R format that the parser accepts
    makes [Step] panic: its operands are float registers, which [valuesFor]
    looks up in the array of the 32 general-purpose ones. *)
Theorem parsed_float_panics (i : Instruction) (p : Parser) i' p'
    (c : CPU) (r : Rand.rng) :
  opcodes (Op i) = Some rformat -> registerPrefix i <> "X"%char ->
  rformatParser i p = Ok (i', None, p') ->
  wf c -> prog c !! Z.to_nat (PC c) = Some i' ->
  Step c r = panic "index out of range".
Proof.
  intros Hop Hpre Hparse Hwf Hi.
  destruct (rformatParser_regs i p i' p' Hparse)
    as (HOp & (q1 & q1' & Hf) & (q2 & q2' & Hr)).
  apply expectRegister_in_bank in Hf, Hr.
  assert (Hf32 : 32 <= Addr.Reg (From i')) by (destruct Hf as [[? ?]|[[? ?]|[? ?]]]; [done|lia|lia]).
  assert (Hr32 : 32 <= Reg i') by (destruct Hr as [[? ?]|[[? ?]|[? ?]]]; [done|lia|lia]).
  apply (Step_arith_panic c r i' Hwf Hi); [|lia|lia|].
  - rewrite HOp. by apply rformat_no_I.
  - unfold gp. lia.
Qed.

End ParserMore.

(** ** The lexer and the parser on blank text and on single names *)

Section Blank.
Import Asm Lex Parse.

Lemma get_lt s : forall k, (k < String.length s)%nat -> exists c, String.get k s = Some c.
Proof.
  induction s as [|a s IH]; intros k Hk; cbn in *; [lia|].
  destruct k as [|k]; [eauto|]. apply IH. lia.
Qed.

Lemma substring_empty s : forall n, String.substring n 0 s = ""%string.
Proof.
  induction s as [|a s IH]; intros [|n]; cbn; auto.
Qed.

(** On input that is white space from the cursor on, [lexInput] skips it
    all and sends the one [itemEOF]. *)
Lemma lexInput_blank src :
  (forall k c, String.get k src = Some c -> IsSpace (rune_of c) = true) ->
  forall fuel l,
    input l = src -> start l = pos l -> items l = [] ->
    (String.length src - pos l <= fuel)%nat ->
    exists l',
      lexInput_loop fuel l = Ok (StNil, l')
      /\ items l' = [ {| typ := itemEOF; text := "" |} ].
Proof.
  intros Hsp fuel. induction fuel as [|fuel IH]; intros l Hin Hst Hit Hf.
  - cbn [lexInput_loop]. unfold next. rewrite Hin.
    destruct (Nat.leb_spec (String.length src) (pos l)); [|lia].
    cbn. unfold emit, send. cbn. rewrite Hit. cbn.
    eexists. split; [reflexivity|]. cbn.
    by rewrite Hin, Hst, Nat.sub_diag, substring_empty.
  - cbn [lexInput_loop]. unfold next. rewrite Hin.
    destruct (Nat.leb_spec (String.length src) (pos l)) as [Hge|Hlt].
    + cbn. unfold emit, send. cbn. rewrite Hit. cbn.
      eexists. split; [reflexivity|]. cbn.
      by rewrite Hin, Hst, Nat.sub_diag, substring_empty.
    + destruct (get_lt src (pos l) Hlt) as [ch Hch]. rewrite Hch.
      pose proof (Hsp _ _ Hch) as Hs.
      assert (Hr : 9 <= rune_of ch <= 32).
      { unfold IsSpace in Hs. apply orb_prop in Hs. destruct Hs as [Hs|Hs].
        - apply andb_prop in Hs. destruct Hs as [H1 H2].
          apply Z.leb_le in H1, H2. lia.
        - apply Z.eqb_eq in Hs. lia. }
      destruct (Z.ltb_spec (rune_of ch) 128); [|lia].
      cbn -[IsSpace rune_of]. 
      destruct (Z.eqb_spec (rune_of ch) eof); [unfold eof in *; lia|].
      rewrite Hs. apply IH; cbn; auto. lia.
Qed.

(** X18.  A text of white space only, the empty text too, is the end of
    the stream for [Next] and an empty program for the driver. *)
Theorem Next_blank (src : string) :
  (forall k c, String.get k src = Some c -> IsSpace (rune_of c) = true) ->
  (exists p, Next (Use Parse.new src) = Ok (Asm.zero, Some EOF, p))
  /\ parse_program src = Ok ([], None).
Proof.
  intros Hsp.
  destruct (lexInput_blank src Hsp (String.length src) (lex src))
    as (l' & Hlex & Hit); [reflexivity|reflexivity|reflexivity|cbn; lia|].
  assert (HN : exists p, Next (Use Parse.new src) = Ok (Asm.zero, Some EOF, p)).
  { unfold Next, expect, Parse.nextItem, lexer_nextItem, Lex.nextItem.
    cbn [Use l pk Parse.new nextItem_loop lex items call_state state].
    unfold lexInput. cbn [input lex]. rewrite Hlex.
    cbn. rewrite Hit. cbn. eexists. reflexivity. }
  split; [exact HN|].
  destruct HN as [p HN]. unfold parse_program.
  destruct (String.length src); cbn [parse_loop]; rewrite HN; reflexivity.
Qed.

End Blank.

Section Names.
Import Asm Lex Parse.

Lemma get_Some_lt s : forall k c, String.get k s = Some c -> (k < String.length s)%nat.
Proof.
  induction s as [|a s IH]; intros k c H; cbn in *; [discriminate|].
  destruct k as [|k]; [lia|]. apply IH in H. lia.
Qed.

Lemma get_In s : forall k c, String.get k s = Some c -> In c (list_ascii_of_string s).
Proof.
  induction s as [|a s IH]; intros k c H; cbn in *; [discriminate|].
  destruct k as [|k]; [injection H as ->; by left|]. right. by eapply IH.
Qed.

Lemma name_text_runes s k c :
  name_text s = true -> String.get k s = Some c -> name_rune c = true.
Proof.
  destruct s as [|a s]; [discriminate|]. cbn [name_text]. intros H Hk.
  apply andb_prop in H. destruct H as [Ha Hs].
  destruct k as [|k]; cbn in Hk.
  - injection Hk as <-. unfold name_rune. by rewrite Ha.
  - apply (proj1 (forallb_forall _ _) Hs). by eapply get_In.
Qed.

Lemma name_rune_ascii c : name_rune c = true -> 48 <= rune_of c <= 122.
Proof.
  unfold name_rune, IsLetter, IsDigit. intros H.
  repeat match goal with
  | H : (_ || _) = true |- _ => apply orb_prop in H; destruct H as [H|H]
  | H : (_ && _) = true |- _ => apply andb_prop in H; destruct H as [? ?]
  | H : (_ <=? _) = true |- _ => apply Z.leb_le in H
  end; lia.
Qed.

(** [acceptRange] over letters and digits, in a text made of them, runs to
    the end of the text. *)
Lemma acceptRange_name src :
  (forall k c, String.get k src = Some c -> name_rune c = true) ->
  forall fuel l,
    input l = src -> (String.length src - pos l <= fuel)%nat ->
    (pos l <= String.length src)%nat ->
    exists w, acceptRange_loop fuel [IsLetter; IsDigit] l
              = Ok (set_cursor l (start l) (String.length src) w).
Proof.
  intros Hn fuel. induction fuel as [|fuel IH]; intros l Hin Hf Hp;
    cbn [acceptRange_loop]; unfold next; rewrite Hin;
    destruct (Nat.leb_spec (String.length src) (pos l)) as [Hge|Hlt]; try lia.
  - cbn. exists 0%nat. unfold backup, set_cursor. cbn. do 2 f_equal. lia.
  - cbn. exists 0%nat. unfold backup, set_cursor. cbn. do 2 f_equal. lia.
  - destruct (get_lt src (pos l) Hlt) as [ch Hch]. rewrite Hch.
    pose proof (Hn _ _ Hch) as Hc. pose proof (name_rune_ascii _ Hc) as Hr.
    destruct (Z.ltb_spec (rune_of ch) 128); [|lia].
    cbn -[IsLetter IsDigit rune_of]. unfold name_rune in Hc.
    rewrite orb_false_r, Hc.
    cbn -[IsLetter IsDigit rune_of].
    destruct (IH (set_cursor l (start l) (pos l + 1) 1)) as [w Hw];
      [exact Hin|cbn; lia|cbn; lia|].
    exists w. exact Hw.
Qed.

(** [lexInput] on a letter hands over to [lexName] without consuming it. *)
Lemma lexInput_letter fuel l ch :
  String.get (pos l) (input l) = Some ch -> IsLetter (rune_of ch) = true ->
  lexInput_loop fuel l = Ok (StName, set_cursor l (start l) (pos l) 1).
Proof.
  intros Hch Hl. pose proof (get_Some_lt _ _ _ Hch) as Hlt.
  assert (Hr : 65 <= rune_of ch <= 90 \/ 97 <= rune_of ch <= 122).
  { unfold IsLetter in Hl. apply orb_prop in Hl.
    destruct Hl as [H|H]; apply andb_prop in H; destruct H as [H1 H2];
      apply Z.leb_le in H1, H2; lia. }
  destruct fuel; cbn [lexInput_loop]; unfold next;
    (destruct (Nat.leb_spec (String.length (input l)) (pos l)); [lia|]);
    rewrite Hch; (destruct (Z.ltb_spec (rune_of ch) 128); [|lia]);
    cbn -[IsLetter rune_of];
    unfold eof, IsSpace;
    repeat match goal with
    | |- context [?a =? ?b] => destruct (Z.eqb_spec a b); [lia|]
    | |- context [?a <=? ?b] => destruct (Z.leb_spec a b)
    end; cbn -[IsLetter rune_of]; try lia; rewrite ?Hl;
    unfold backup, set_cursor; cbn; do 3 f_equal; lia.
Qed.

(** At the end of the input [lexInput] sends the [itemEOF]. *)
Lemma lexInput_end fuel l :
  (String.length (input l) <= pos l)%nat -> items l = [] ->
  exists l', lexInput_loop fuel l = Ok (StNil, l')
    /\ items l' = [ {| typ := itemEOF;
                       text := String.substring (start l) (pos l - start l) (input l) |} ].
Proof.
  intros Hp Hit.
  destruct fuel; cbn [lexInput_loop]; unfold next;
    (destruct (Nat.leb_spec (String.length (input l)) (pos l)); [|lia]);
    cbn; unfold emit, send; cbn; rewrite Hit; cbn; eexists; split;
    reflexivity.
Qed.

Lemma accept_at_end valid l :
  (String.length (input l) <= pos l)%nat ->
  accept valid l = Ok (false, set_cursor l (start l) (pos l) 0).
Proof.
  intros Hp. unfold accept, next.
  destruct (Nat.leb_spec (String.length (input l)) (pos l)); [|lia].
  cbn. unfold backup, set_cursor. cbn. do 3 f_equal. lia.
Qed.

(** [lexName] at the start of a text of letters and digits sends the text
    from [start] on as one name and leaves the cursor at the end. *)
Lemma lexName_name l :
  (forall k c, String.get k (input l) = Some c -> name_rune c = true) ->
  (pos l <= String.length (input l))%nat ->
  length (items l) = 0%nat ->
  exists l',
    lexName l = Ok (StInput, l')
    /\ input l' = input l
    /\ start l' = String.length (input l) /\ pos l' = String.length (input l)
    /\ items l' = [ {| typ := itemName;
                       text := String.substring (start l)
                                 (String.length (input l) - start l) (input l) |} ].
Proof.
  intros Hn Hp Hit. unfold lexName, acceptRange.
  destruct (acceptRange_name (input l) Hn (String.length (input l)) l)
    as [w1 Hw1]; [reflexivity|lia|lia|].
  rewrite Hw1. cbn [mbind result_bind bind].
  rewrite accept_at_end by (cbn; lia). cbn [mbind result_bind bind].
  match goal with |- context [acceptRange_loop ?f _ ?l2] =>
    destruct (acceptRange_name (input l) Hn f l2) as [w2 Hw2];
      [reflexivity|cbn; lia|cbn; lia|]; rewrite Hw2
  end.
  cbn [mbind result_bind bind]. unfold emit, send. cbn.
  destruct (items l); [|discriminate]. cbn.
  eexists. split; [reflexivity|]. cbn. auto.
Qed.

Lemma nextItem_loop_pop fuel l i q :
  items l = i :: q -> nextItem_loop fuel l = Ok (i, set_items l q).
Proof. intros H. destruct fuel; cbn [nextItem_loop]; by rewrite H. Qed.

Lemma nextItem_loop_run fuel l s l1 :
  items l = [] -> call_state l = Ok (s, l1) ->
  nextItem_loop (S fuel) l = nextItem_loop fuel (set_state l1 s).
Proof. intros H Hc. cbn [nextItem_loop]. by rewrite H, Hc. Qed.

(** The lexer on a text that is one plain name: the name, then the end. *)
Lemma lex_name src :
  name_text src = true ->
  exists l1 l2,
    Lex.nextItem (lex src) = Ok ({| typ := itemName; text := src |}, l1)
    /\ Lex.nextItem l1 = Ok ({| typ := itemEOF; text := "" |}, l2).
Proof.
  intros Hn.
  assert (Hall : forall k c, String.get k src = Some c -> name_rune c = true)
    by (intros k c; by apply name_text_runes).
  destruct src as [|a s] eqn:Hsrc; [discriminate|]. rewrite <- Hsrc in *.
  assert (Ha : String.get 0 src = Some a) by (by rewrite Hsrc).
  assert (Hla : IsLetter (rune_of a) = true).
  { rewrite Hsrc in Hn. cbn [name_text] in Hn. by apply andb_prop in Hn as [? _]. }
  set (lN := set_state (set_cursor (lex src) 0 0 1) StName).
  destruct (lexName_name lN) as (l' & Hl' & Hin & Hst & Hpos & Hit);
    [exact Hall|cbn; lia|reflexivity|].
  cbn [lN set_state set_cursor input start lex] in Hin, Hst, Hpos, Hit.
  rewrite Nat.sub_0_r, substring_all in Hit.
  set (l1 := set_items (set_state l' StInput) []).
  destruct (lexInput_end (String.length (input l1)) l1) as (l'' & Hl'' & Hit'');
    [cbn; rewrite Hin, Hpos; lia|reflexivity|].
  cbn [l1 set_items set_state input start pos] in Hit''.
  rewrite Hin, Hst, Hpos, Nat.sub_diag, substring_empty in Hit''.
  exists l1, (set_items (set_state l'' StNil) []). split.
  - unfold Lex.nextItem.
    rewrite (nextItem_loop_run 2 (lex src) StName (set_cursor (lex src) 0 0 1));
      [|reflexivity|exact (lexInput_letter _ (lex src) a Ha Hla)].
    rewrite (nextItem_loop_run 1 _ StInput l'); [|reflexivity|exact Hl'].
    rewrite (nextItem_loop_pop 1 (set_state l' StInput) _ [] Hit). reflexivity.
  - unfold Lex.nextItem.
    rewrite (nextItem_loop_run 2 l1 StNil l''); [|reflexivity|exact Hl''].
    rewrite (nextItem_loop_pop 2 (set_state l'' StNil) _ [] Hit''). reflexivity.
Qed.

(** X19.  A plain name that is no mnemonic of the table is refused by
    name: the error is [opcode not supported], and the driver stops on it. *)
Theorem Next_unknown_opcode (src : string) :
  name_text src = true -> opcodes src = None ->
  (exists p, Next (Use Parse.new src)
     = Ok (with_Op Asm.zero src,
           Some (Errorf ("opcode not supported: " +:+ src)), p))
  /\ parse_program src
     = Ok ([], Some (Errorf ("opcode not supported: " +:+ src))).
Proof.
  intros Hn Hop.
  destruct (lex_name src Hn) as (l1 & l2 & H1 & H2).
  assert (HN : exists p, Next (Use Parse.new src)
     = Ok (with_Op Asm.zero src,
           Some (Errorf ("opcode not supported: " +:+ src)), p)).
  { unfold Next, expect, has, peek, Parse.nextItem, lexer_nextItem.
    cbn [Use l pk Parse.new]. rewrite H1.
    cbn [mbind result_bind bind typ text l pk]. 
    rewrite decide_False by discriminate. rewrite decide_True by reflexivity.
    cbn [mbind result_bind bind typ text l pk]. rewrite H2.
    cbn [mbind result_bind bind typ text l pk].
    rewrite bool_decide_eq_false_2 by discriminate.
    cbn [mbind result_bind bind Op with_Op]. rewrite Hop. eexists. reflexivity. }
  split; [exact HN|]. destruct HN as [p HN].
  unfold parse_program. destruct (String.length src); cbn [parse_loop];
    rewrite HN; reflexivity.
Qed.

End Names.

Section Bare.
Import Asm Lex Parse.

(** X20.  A mnemonic of the table with nothing after it.  The formats that
    start with a register report the missing operand by its slot; the branch
    formats other than [BR] peek a second time, past the end of the input,
    and call the lexer's nil state; [MOVZ] and [MOVK] have no parser. *)
Theorem Next_bare_mnemonic (op : string) (f : insFormat) :
  opcodes op = Some f ->
  match f with
  | imformat =>
      Next (Use Parse.new op) = panic ("opcode: " +:+ op +:+ " missing parser")
  | cbformat =>
      exists i p, Next (Use Parse.new op) = Ok (i, Some (Errorf "from: EOF"), p)
  | bformat =>
      if String.eqb op "BR"
      then exists i p, Next (Use Parse.new op) = Ok (i, Some (Errorf "to: EOF"), p)
      else Next (Use Parse.new op)
           = panic "invalid memory address or nil pointer dereference"
  | _ => exists i p, Next (Use Parse.new op) = Ok (i, Some (Errorf "to: EOF"), p)
  end.
Proof.
  intros H. apply assoc_In in H. unfold opcodes_table in H. cbn [In] in H.
  repeat (destruct H as [H|H];
    [ injection H as <- <-; cbv iota;
      first [ reflexivity
            | (eexists _, _; vm_compute; reflexivity)
            | (vm_compute; reflexivity)
            | (vm_compute; eexists _, _; reflexivity) ] | ]).
  destruct H.
Qed.

End Bare.

(** ** The further properties at concrete inputs *)

Section Witnesses.
Import Asm Lex Parse Cpu Examples.

Lemma Write_frame_witness :
  exists m' r',
    Mem.Write Mem.empty zeros sixteen 1016 = Ok (16, None, m', r')
    /\ Mem.wf m'
    /\ (forall i, 0 <= i < 16 ->
          Mem.byte_at m' (wrap64 (1016 + i)) = sixteen !! Z.to_nat i)
    /\ (forall x v,
          (forall i, 0 <= i < 16 -> x <> wrap64 (1016 + i)) ->
          Mem.byte_at Mem.empty x = Some v -> Mem.byte_at m' x = Some v)
    /\ (forall k, is_Some (Mem.blocks Mem.empty !! k) ->
          is_Some (Mem.blocks m' !! k)).
Proof.
  apply (Write_frame Mem.empty zeros sixteen 1016); [apply wf_empty|reflexivity].
Defined.

Lemma Read_fills_buffer_witness :
  exists buf' m' r',
    Mem.Read Mem.empty zeros (replicate 16 Byte.x00) 1016
    = Ok (16, None, buf', m', r')
    /\ Mem.wf m' /\ length buf' = 16%nat
    /\ (forall x v, Mem.byte_at Mem.empty x = Some v -> Mem.byte_at m' x = Some v)
    /\ (forall i, 0 <= i < 16 ->
          Mem.byte_at m' (wrap64 (1016 + i)) = buf' !! Z.to_nat i)
    /\ (forall i v, 0 <= i < 16 ->
          Mem.byte_at Mem.empty (wrap64 (1016 + i)) = Some v ->
          buf' !! Z.to_nat i = Some v).
Proof.
  apply (Read_fills_buffer Mem.empty zeros (replicate 16 Byte.x00) 1016);
    [apply wf_empty|reflexivity].
Defined.

Lemma Read_twice_witness :
  exists buf' m' r',
    Mem.Read Mem.empty ones (replicate 16 Byte.x00) 1016
    = Ok (16, None, buf', m', r')
    /\ Mem.Read m' r' sixteen 1016 = Ok (16, None, buf', m', r').
Proof.
  apply (Read_twice Mem.empty ones (replicate 16 Byte.x00) sixteen 1016);
    [apply wf_empty|reflexivity|reflexivity].
Defined.

Lemma STUR_little_endian_witness :
  exists b c' r' m',
    Step (with_PC (loaded (only 3 12) S1_prog) 3) zeros = Ok (b, c', r')
    /\ Memory c' = Some m' /\ PC c' = 3 + 1
    /\ Registers c' = Registers (loaded (only 3 12) S1_prog)
    /\ Flags c' = 0
    /\ (forall k, (k < 8)%nat ->
          Mem.byte_at m' (wrap64 (0 + 0 + Z.of_nat k))
          = Some (Rand.byte_of_Z (Z.shiftr 12 (8 * Z.of_nat k))))
    /\ (forall x b0,
          (forall k, (k < 8)%nat -> x <> wrap64 (0 + 0 + Z.of_nat k)) ->
          Mem.byte_at Mem.empty x = Some b0 -> Mem.byte_at m' x = Some b0).
Proof.
  apply (STUR_little_endian (with_PC (loaded (only 3 12) S1_prog) 3) zeros
           (dfm "STUR" 3 XZR 0) Mem.empty 12 0);
    [apply wfb_wf; reflexivity|reflexivity|apply wf_empty|reflexivity
    |reflexivity|by vm_compute|by vm_compute|reflexivity|reflexivity].
Defined.

Lemma STUR_then_LDUR_witness :
  exists c1 r1 b c2,
    Step (loaded (only 3 12) st_ld_prog) zeros = Ok (true, c1, r1)
    /\ Step c1 r1 = Ok (b, c2, r1)
    /\ Registers c2 = <[4%nat := 12]> (Registers (loaded (only 3 12) st_ld_prog))
    /\ PC c2 = 0 + 2 /\ Memory c2 = Memory c1.
Proof.
  apply (STUR_then_LDUR (loaded (only 3 12) st_ld_prog) zeros
           (dfm "STUR" 3 XZR 8) (dfm "LDUR" 4 XZR 8) Mem.empty 12);
    [apply wfb_wf; reflexivity|reflexivity|apply wf_empty|reflexivity
    |reflexivity|reflexivity|reflexivity|reflexivity|by vm_compute
    |by vm_compute|by vm_compute|by vm_compute|reflexivity].
Defined.

Lemma Step_plain_arith_witness :
  Step (loaded (only 31 7) S1_prog) zeros
  = Ok (true,
        with_PC (with_Registers (loaded (only 31 7) S1_prog)
                   (<[1%nat := wrap64 (7 + 5)]>
                      (Registers (loaded (only 31 7) S1_prog)))) (0 + 1),
        zeros).
Proof.
  apply (Step_plain_arith (loaded (only 31 7) S1_prog) zeros
           (rri "ADDI" 1 XZR 5) true (fun x y => wrap64 (x + y)) 7 5);
    [apply wfb_wf; reflexivity|reflexivity|reflexivity|by vm_compute
    |reflexivity|reflexivity].
Defined.

Lemma Step_flags_memory_frame_witness :
  exists c' r',
    Step (loaded (only 2 1) lsl_prog) zeros = Ok (false, c', r')
    /\ (HasSuffix "LSL" "S" = false -> Flags c' = 0)
    /\ ("LSL"%string <> "STUR"%string -> "LSL"%string <> "LDUR"%string ->
        Memory c' = Some Mem.empty /\ r' = zeros).
Proof.
  eexists _, _. split; [vm_compute; reflexivity|].
  eapply (Step_flags_memory_frame (loaded (only 2 1) lsl_prog) zeros
            (rri "LSL" 1 2 3) false);
    [reflexivity|vm_compute; reflexivity].
Defined.

Lemma Step_keeps_program_witness :
  exists c' r',
    Step (loaded (only 2 1) lsl_prog) zeros = Ok (false, c', r')
    /\ prog c' = lsl_prog
    /\ labels c' = labels (loaded (only 2 1) lsl_prog)
    /\ Err c' = None.
Proof.
  eexists _, _. split; [vm_compute; reflexivity|].
  eapply (Step_keeps_program (loaded (only 2 1) lsl_prog) zeros false).
  vm_compute. reflexivity.
Defined.

Lemma branch_targets_witness :
  (exists b, Step (loaded (only 30 1) br_prog) zeros
             = Ok (b, with_PC (loaded (only 30 1) br_prog) 1, zeros))
  /\ (exists b, Step (loaded (fun _ => 0) boff_prog) zeros
             = Ok (b, with_PC (loaded (fun _ => 0) boff_prog) (wrap64 (0 + 2)),
                   zeros))
  /\ (exists b, Step (loaded (fun _ => 0) bne_prog) zeros
             = Ok (b, with_PC (loaded (fun _ => 0) bne_prog)
                        (default 0 (labels (loaded (fun _ => 0) bne_prog)
                                      !! "other"%string)), zeros)).
Proof.
  split; [|split].
  - destruct (branch_targets (loaded (only 30 1) br_prog) zeros
                (rrr "BR" LR 0 0)) as (H & _ & _);
      [apply wfb_wf; reflexivity|reflexivity|by vm_compute|by vm_compute|].
    apply (H eq_refl 1). reflexivity.
  - destruct (branch_targets (loaded (fun _ => 0) boff_prog) zeros
                (boff "B" 2)) as (_ & H & _);
      [apply wfb_wf; reflexivity|reflexivity|by vm_compute|by vm_compute|].
    apply H; reflexivity.
  - destruct (branch_targets (loaded (fun _ => 0) bne_prog) zeros
                (bto "B.NE" "other")) as (_ & _ & H);
      [apply wfb_wf; reflexivity|reflexivity|by vm_compute|by vm_compute|].
    apply (H "NE"%string); [reflexivity|reflexivity|discriminate].
Defined.

Lemma Step_unknown_condition_witness :
  opcodes "B.MI" = Some bformat
  /\ Step (loaded (fun _ => 0) bmi_prog) zeros = panic "unknown comparison".
Proof.
  apply (Step_unknown_condition (loaded (fun _ => 0) bmi_prog) zeros
           (bto "B.MI" "neg"));
    [apply wfb_wf; reflexivity|reflexivity|by vm_compute|by vm_compute
    |cbn; tauto].
Defined.

Lemma run_ends_past_program_witness :
  exists c' r',
    run 1 (loaded (only 2 1) lsl_prog) zeros = Ok (c', r')
    /\ prog c' = lsl_prog /\ 1 <= PC c'.
Proof.
  eexists _, _. split; [vm_compute; reflexivity|].
  eapply (run_ends_past_program 1 (loaded (only 2 1) lsl_prog) zeros);
    [discriminate|vm_compute; reflexivity].
Defined.

Lemma Load_label_map_witness :
  labels (Load Cpu.zero zeros cbz_prog).1.1 !! "skip"%string = Some 2
  /\ labels (Load Cpu.zero zeros cbz_prog).1.1 !! "done"%string = None.
Proof.
  split.
  - destruct (Load_label_map Cpu.zero zeros cbz_prog "skip") as [H _];
      [discriminate|reflexivity|].
    apply (H 2%nat (with_Label (rri "ADDI" 3 XZR 7) "skip"));
      [reflexivity|reflexivity|].
    intros [|[|[|k']]] ins' Hlt Hk; try lia; discriminate.
  - destruct (Load_label_map Cpu.zero zeros cbz_prog "done") as [_ H];
      [discriminate|reflexivity|].
    apply H. intros [|[|[|k]]] ins Hk; try discriminate;
      injection Hk as <-; discriminate.
Defined.

Lemma expectRegister_bank_witness :
  exists r p',
    expectRegister "X" (Use Parse.new "X5") = Ok (r, None, p')
    /\ (("X"%char = "X"%char /\ 0 <= r < 32)
        \/ ("X"%char = "S"%char /\ 32 <= r < 64)
        \/ ("X"%char = "D"%char /\ 64 <= r < 96)).
Proof.
  eexists _, _. split; [vm_compute; reflexivity|].
  eapply (expectRegister_bank "X" (Use Parse.new "X5")).
  vm_compute. reflexivity.
Defined.

Lemma Register_String_parses_witness :
  exists p', expectRegister (bank XZR) (Use Parse.new (Register_String XZR))
             = Ok (XZR, None, p').
Proof. apply (Register_String_parses XZR). by vm_compute. Defined.

Lemma expectImmediate_range_witness :
  exists n p',
    expectImmediate 16 (Use Parse.new "#70000") = Ok (n, None, p')
    /\ 0 <= n < 2 ^ 32.
Proof.
  eexists _, _. split; [vm_compute; reflexivity|].
  eapply (expectImmediate_range 16 (Use Parse.new "#70000")).
  vm_compute. reflexivity.
Defined.

Lemma Next_opcode_known_witness :
  exists i p',
    Next (Use Parse.new S1_text) = Ok (i, None, p')
    /\ exists f fp, opcodes (Op i) = Some f /\ parser_of f = Some fp.
Proof.
  eexists _, _. split; [vm_compute; reflexivity|].
  eapply (Next_opcode_known (Use Parse.new S1_text)).
  vm_compute. reflexivity.
Defined.

Lemma parsed_float_panics_witness :
  exists p',
    rformatParser (with_Op Asm.zero "FADDS") (Use Parse.new "S1, S2, S3")
    = Ok (rrr "FADDS" (S0 + 1) (S0 + 2) (S0 + 3), None, p')
    /\ Step (loaded (fun _ => 0) fadds_prog) zeros = panic "index out of range".
Proof.
  eexists. split; [vm_compute; reflexivity|].
  eapply (parsed_float_panics (with_Op Asm.zero "FADDS")
            (Use Parse.new "S1, S2, S3")
            (rrr "FADDS" (S0 + 1) (S0 + 2) (S0 + 3)) _
            (loaded (fun _ => 0) fadds_prog) zeros);
    [reflexivity|by vm_compute|vm_compute; reflexivity
    |apply wfb_wf; reflexivity|reflexivity].
Defined.

Lemma Next_blank_witness :
  (exists p, Next (Use Parse.new blank_text) = Ok (Asm.zero, Some EOF, p))
  /\ parse_program blank_text = Ok ([], None).
Proof.
  apply (Next_blank blank_text).
  intros [|[|[|k]]] c H; vm_compute in H; try discriminate;
    injection H as <-; reflexivity.
Defined.

Lemma Next_unknown_opcode_witness :
  (exists p, Next (Use Parse.new "NOP")
     = Ok (with_Op Asm.zero "NOP",
           Some (Errorf "opcode not supported: NOP"), p))
  /\ parse_program "NOP" = Ok ([], Some (Errorf "opcode not supported: NOP")).
Proof. apply (Next_unknown_opcode "NOP"); reflexivity. Defined.

Lemma Next_bare_mnemonic_witness :
  exists i p, Next (Use Parse.new "ADD") = Ok (i, Some (Errorf "to: EOF"), p).
Proof. apply (Next_bare_mnemonic "ADD" rformat). reflexivity. Defined.

End Witnesses.
